(** * Crockford base 32 helpers: a shallow embedding of [crockford.go]

    The Go package layers a handful of helpers over [encoding/base32]:
    alphabets, a sortable time prefix, a random salt, an MD5 fingerprint,
    a mod-37 check symbol and a normaliser for hand-typed codes.

    Conventions of the embedding:
    - a Go [byte] is a [Byte.byte]; [int] and [int64] values are [Z], with
      the conversion to [byte] and the wrap-around of the arithmetic of
      [mod] written out; lengths, capacities and indices of slices are far
      below [2^63] and are not wrapped;
    - a Go [string] is the list of its bytes;
    - a [[]byte] that is written to, or that may share its array with one
      that is, is a slice header (array, offset, length, capacity) over a
      heap of arrays, so that spare capacity, reallocation and aliasing
      are visible; the [body] of [Checksum], which is only read, is the
      list of its bytes;
    - a function that can panic returns a [result]; one that touches the
      heap lives in the monad [M];
    - what the package leaves to the Go runtime and to other packages is a
      parameter: the capacity [append] chooses when it reallocates, the
      digest of [crypto/md5], the outcome of [crypto/rand]. The transform
      of [encoding/base32] is written out from its specification. *)

From Stdlib Require Import ZArith Lia ZifyNat ZifyBool List Bool.
From Stdlib Require Import Strings.Byte Strings.String.
From stdpp Require Import base list.
Import ListNotations.

Local Open Scope Z_scope.

(** [lia] also decides goals with division and remainder by constants. *)
Ltac Zify.zify_post_hook ::= Z.to_euclidean_division_equations.

(** ** Bytes and machine integers *)

(** [int(c)], [uint64(c)]: the numeric value of a byte. *)
Definition int_of_byte (c : byte) : Z := Z.of_N (Byte.to_N c).

(** [byte(x)]: conversion of an integer to a byte keeps the low 8 bits. *)
Definition byte_of_Z (x : Z) : byte :=
  match Byte.of_N (Z.to_N (x mod 256)) with
  | Some b => b
  | None => x00
  end.

(** Two's complement wrap-around of the 64-bit [int]. *)
Definition wrap64 (x : Z) : Z := (x + 2 ^ 63) mod 2 ^ 64 - 2 ^ 63.

(** A string literal as the list of its bytes. *)
Definition bytes (s : string) : list byte := list_byte_of_string s.

(** ** Results and panics *)

Inductive result (A : Type) : Type :=
| Ok (a : A)
| Panic (msg : string).
Arguments Ok {A} a.
Arguments Panic {A} msg.

Definition rbind {A B} (r : result A) (k : A -> result B) : result B :=
  match r with
  | Ok a => k a
  | Panic msg => Panic msg
  end.

(** [a % m] on [int]: truncated remainder, panics on a zero divisor. *)
Definition int_rem (a m : Z) : result Z :=
  if m =? 0 then Panic "integer divide by zero" else Ok (wrap64 (Z.rem a m)).

(** [s[i]] on a string. *)
Definition string_index (s : list byte) (i : Z) : result byte :=
  if (0 <=? i) && (i <? Z.of_nat (length s))
  then Ok (nth (Z.to_nat i) s x00)
  else Panic "index out of range".

(** ** Alphabets *)

Definition LowercaseAlphabet : list byte := bytes "0123456789abcdefghjkmnpqrstvwxyz".
Definition UppercaseAlphabet : list byte := bytes "0123456789ABCDEFGHJKMNPQRSTVWXYZ".
Definition UppercaseChecksum : list byte := UppercaseAlphabet ++ bytes "*~$=U".
Definition LowercaseChecksum : list byte := LowercaseAlphabet ++ bytes "*~$=u".

Definition LenTime : Z := 8.
Definition LenRandom : Z := 8.
Definition LenMD5 : Z := 26.

(** ** Checksum *)

(** [mod]: the loop [rem = (rem*1<<8 + int(c)) % m] over the bytes of [b].
    In Go [*] and [<<] bind alike and associate to the left, so the body
    is [((rem*1) << 8) + int(c)]. *)
Fixpoint mod_loop (b : list byte) (m rem : Z) : result Z :=
  match b with
  | [] => Ok rem
  | c :: b' =>
      rbind (int_rem (wrap64 (wrap64 (Z.shiftl (wrap64 (rem * 1)) 8) + int_of_byte c)) m)
            (fun rem' => mod_loop b' m rem')
  end.

Definition mod_ (b : list byte) (m : Z) : result Z := mod_loop b m 0.

Definition Checksum (body : list byte) (uppercase : bool) : result byte :=
  let alphabet := if uppercase then UppercaseChecksum else LowercaseChecksum in
  rbind (mod_ body 37) (fun i => string_index alphabet i).

(** ** Normalisation of single bytes *)

Definition normUpper (c : byte) : byte :=
  if existsb (Byte.eqb c) (bytes "0Oo") then "0"%byte
  else if existsb (Byte.eqb c) (bytes "1Ii") then "1"%byte
  else if existsb (Byte.eqb c) (bytes "23456789ABCDEFGHJKMNPQRSTVWXYZ*~$=U") then c
  else if existsb (Byte.eqb c) (bytes "abcdefghjkmnpqrstvwxyzu")
       then byte_of_Z (int_of_byte c + int_of_byte "A" - int_of_byte "a")
  else x00.

(** What the loop of [AppendNormalized] appends for the bytes [s]: the
    image of each byte under [normUpper], bytes mapped to 0 being left
    out. *)
Fixpoint norm_bytes (s : list byte) : list byte :=
  match s with
  | [] => []
  | c :: s' =>
      let r := normUpper c in
      if negb (Byte.eqb r x00) then r :: norm_bytes s' else norm_bytes s'
  end.

(** ** Slices over a heap of arrays *)

(** A slice header: the array it points into, the offset of its first
    element in that array, its length and its capacity. *)
Record slice : Type := Slice { ptr : nat; off : nat; len : nat; cap : nat }.

(** The heap: arrays in order of allocation, an array being named by its
    position. *)
Abbreviation heap := (list (list byte)).

Definition nil_slice : slice := {| ptr := 0; off := 0; len := 0; cap := 0 |}.

Definition array_at (h : heap) (p : nat) : list byte := default [] (h !! p).

(** The bytes a slice denotes in a heap. *)
Definition contents (h : heap) (s : slice) : list byte :=
  take (len s) (drop (off s) (array_at h (ptr s))).

(** [arr] with the cells from [i] on replaced by [xs]. *)
Definition overwrite (i : nat) (xs arr : list byte) : list byte :=
  take i arr ++ xs ++ drop (i + length xs) arr.

Definition heap_write (h : heap) (s : slice) (i : nat) (xs : list byte) : heap :=
  <[ptr s := overwrite (off s + i) xs (array_at h (ptr s))]> h.

(** A slice is well formed in a heap when its capacity lies inside its
    array; every slice a Go program can hold is. *)
Definition wf_slice (h : heap) (s : slice) : Prop :=
  (len s <= cap s)%nat /\ (off s + cap s <= length (array_at h (ptr s)))%nat.

(** ** The monad of heap computations that may panic *)

Definition M (A : Type) : Type := heap -> result (A * heap).

Definition mret {A} (a : A) : M A := fun h => Ok (a, h).

Definition bind {A B} (m : M A) (k : A -> M B) : M B :=
  fun h => match m h with
           | Ok (a, h') => k a h'
           | Panic msg => Panic msg
           end.

Definition panic {A} (msg : string) : M A := fun _ => Panic msg.

Notation "x <- m ;; k" := (bind m (fun x => k))
  (at level 100, m at next level, right associativity).
Notation "m ;;; k" := (bind m (fun _ => k))
  (at level 100, right associativity).

(** The value a computation returns, if it does not panic. *)
Definition value {A} (r : result (A * heap)) : result A :=
  match r with
  | Ok (a, _) => Ok a
  | Panic msg => Panic msg
  end.

(** [make([]byte, n, c)]: a fresh zeroed array of [c] cells.  The
    runtime also refuses a size above its allocation limit; that limit
    is not part of the model, which is the runtime's behaviour for the
    sizes it can allocate (see [alloc_bound]). *)
Definition make (n c : Z) : M slice :=
  if (0 <=? n) && (n <=? c)
  then fun h => Ok ({| ptr := length h; off := 0;
                       len := Z.to_nat n; cap := Z.to_nat c |},
                    h ++ [replicate (Z.to_nat c) x00])
  else panic "makeslice: len out of range".

(** [var a [n]byte] and [[]byte(s)]: a fresh array holding [xs], seen
    through the slice [a[:]]. *)
Definition new_array (xs : list byte) : M slice :=
  fun h => Ok ({| ptr := length h; off := 0;
                  len := length xs; cap := length xs |}, h ++ [xs]).

(** [s[lo:hi]]. *)
Definition sub (s : slice) (lo hi : Z) : M slice :=
  if (0 <=? lo) && (lo <=? hi) && (hi <=? Z.of_nat (cap s))
  then mret {| ptr := ptr s; off := off s + Z.to_nat lo;
               len := Z.to_nat (hi - lo); cap := cap s - Z.to_nat lo |}
  else panic "slice bounds out of range".

(** [string(s)], and any read of all the bytes of [s]. *)
Definition load (s : slice) : M (list byte) := fun h => Ok (contents h s, h).

(** [s[i]]. *)
Definition index (s : slice) (i : Z) : M byte :=
  if (0 <=? i) && (i <? Z.of_nat (len s))
  then fun h => Ok (nth (Z.to_nat i) (contents h s) x00, h)
  else panic "index out of range".

(** [s[i] = xs[0]; s[i+1] = xs[1]; ...], every index checked. *)
Definition store_list (s : slice) (i : Z) (xs : list byte) : M unit :=
  if (0 <=? i) && (i + Z.of_nat (length xs) <=? Z.of_nat (len s))
  then fun h => Ok (tt, heap_write h s (Z.to_nat i) xs)
  else panic "index out of range".

(** [s[i] = v]. *)
Definition store (s : slice) (i : Z) (v : byte) : M unit := store_list s i [v].

(** [len(s)] and [cap(s)] as Go [int]s. *)
Definition Len (s : slice) : Z := Z.of_nat (len s).
Definition Cap (s : slice) : Z := Z.of_nat (cap s).

(** ** The base32 transform of [encoding/base32] *)

(** Modelled from the spec: the encoding configurations of
    [encoding/base32], an external collaborator. An encoding binds an
    alphabet to a padding policy; [None] is [base32.NoPadding]. *)
Record Encoding : Type := { encode : list byte; padChar : option byte }.

Definition StdPadding : byte := "="%byte.

Definition NewEncoding (alphabet : list byte) : Encoding :=
  {| encode := alphabet; padChar := Some StdPadding |}.

Definition WithPadding (e : Encoding) (p : option byte) : Encoding :=
  {| encode := encode e; padChar := p |}.

Definition Lower : Encoding := WithPadding (NewEncoding LowercaseAlphabet) None.
Definition Upper : Encoding := WithPadding (NewEncoding UppercaseAlphabet) None.

(** The 40-bit value of a quantum of at most 5 bytes, short quanta being
    completed with zero bits. *)
Definition quantum_value (q : list byte) : Z :=
  let b i := int_of_byte (nth i q x00) in
  Z.lor (Z.shiftl (b 0%nat) 32)
    (Z.lor (Z.shiftl (b 1%nat) 24)
      (Z.lor (Z.shiftl (b 2%nat) 16)
        (Z.lor (Z.shiftl (b 3%nat) 8) (b 4%nat)))).

(** The [n] low 5-bit groups of [v], most significant first. *)
Fixpoint groups (n : nat) (v : Z) : list Z :=
  match n with
  | O => []
  | S k => Z.land (Z.shiftr v (5 * Z.of_nat k)) 31 :: groups k v
  end.

(** [enc.encode[g]]. *)
Definition symbol (e : Encoding) (g : Z) : byte := nth (Z.to_nat g) (encode e) x00.

(** Number of characters that carry the bits of [n <= 5] bytes. *)
Definition quantum_len (n : nat) : nat := (n * 8 + 4) / 5.

(** Modelled from the spec: the standard base32 transform is an external
    collaborator ([encoding/base32], not part of the repository): 5-bit
    groups of the input, most significant first, looked up in the
    alphabet; a final short quantum yields only the characters that carry
    input bits, followed by padding up to 8 when the encoding pads. *)
Definition quantum_chars (e : Encoding) (q : list byte) : list byte :=
  let n := quantum_len (length q) in
  map (symbol e) (take n (groups 8 (quantum_value q)))
  ++ match padChar e with
     | Some p => replicate (8 - n) p
     | None => []
     end.

(** Modelled from the spec: [Encoding.Encode(dst, src)] of
    [encoding/base32]. It walks [src] in quanta of 5 bytes; each quantum
    is read before its characters are written to [dst], and writing
    outside [dst] panics. *)
Fixpoint Encode_loop (fuel : nat) (e : Encoding) (dst src : slice) : M unit :=
  match fuel with
  | O => mret tt
  | S fuel' =>
      if Len src =? 0 then mret tt
      else
        q <- (head5 <- sub src 0 (Z.min 5 (Len src)) ;; load head5) ;;
        store_list dst 0 (quantum_chars e q) ;;;
        if Len src <? 5 then mret tt
        else
          src' <- sub src 5 (Len src) ;;
          dst' <- sub dst 8 (Len dst) ;;
          Encode_loop fuel' e dst' src'
  end.

Definition Encode (e : Encoding) (dst src : slice) : M unit :=
  Encode_loop (len src) e dst src.

(** What [Encode] writes for the bytes [bs], as a function. *)
Fixpoint encode_bytes (fuel : nat) (e : Encoding) (bs : list byte) : list byte :=
  match fuel with
  | O => []
  | S fuel' =>
      match bs with
      | [] => []
      | _ => quantum_chars e (take 5 bs) ++ encode_bytes fuel' e (drop 5 bs)
      end
  end.

Definition EncodeToString (e : Encoding) (bs : list byte) : list byte :=
  encode_bytes (length bs) e bs.

(** ** Time *)

(** A [time.Time], as far as this package looks at it: its Unix second
    count, an [int64]. *)
Record Time_t : Type := { Unix : Z }.

(** The five bytes [AppendTime] takes from the second count [ut]: bits
    39..0, most significant byte first. *)
Definition time_bytes (ut : Z) : list byte :=
  [byte_of_Z (Z.shiftr ut 32); byte_of_Z (Z.shiftr ut 24);
   byte_of_Z (Z.shiftr ut 16); byte_of_Z (Z.shiftr ut 8); byte_of_Z ut].

(** The characters of the time [ut] in the encoding [e]. *)
Definition time_chars (e : Encoding) (ut : Z) : list byte :=
  EncodeToString e (time_bytes ut).

(** [s1 < s2] on Go strings: bytewise lexicographic order, a proper
    prefix coming first. *)
Fixpoint string_lt (s1 s2 : list byte) : bool :=
  match s1, s2 with
  | _, [] => false
  | [], _ :: _ => true
  | c1 :: r1, c2 :: r2 =>
      (int_of_byte c1 <? int_of_byte c2)
      || ((int_of_byte c1 =? int_of_byte c2) && string_lt r1 r2)
  end.

(** The bytes of [l] increase strictly from left to right. *)
Fixpoint increasing (l : list byte) : bool :=
  match l with
  | a :: (b :: _) as tl => (int_of_byte a <? int_of_byte b) && increasing tl
  | _ => true
  end.

(** Outcome of one call of [rand.Read]. *)
Inductive read_outcome : Type :=
| ReadOk (bs : list byte)
| ReadErr (err : string).

Section Runtime.

(** The Go runtime chooses the capacity of a reallocated array: when
    [append] outgrows a capacity [c] to hold [n] elements the new array
    has [n + slack c n] cells. *)
Variable slack : nat -> nat -> nat.

(** [crypto/md5], a black box: the digest of a byte sequence. The
    properties below assume it has [md5.Size] = 16 bytes. *)
Variable md5_Sum : list byte -> list byte.

(** [crypto/rand]: what [rand.Read] yields when asked for [n] bytes. *)
Variable rand_Read : nat -> read_outcome.

(** [append(s, xs...)]: in place when the capacity of [s] suffices,
    otherwise into a fresh array that starts with the bytes of [s]. *)
Definition append (s : slice) (xs : list byte) : M slice :=
  fun h =>
    let n := (len s + length xs)%nat in
    if (n <=? cap s)%nat
    then Ok ({| ptr := ptr s; off := off s; len := n; cap := cap s |},
             heap_write h s (len s) xs)
    else let k := slack (cap s) n in
         Ok ({| ptr := length h; off := 0; len := n; cap := (n + k)%nat |},
             h ++ [contents h s ++ xs ++ replicate k x00]).

(** [ensure(size, b)]: [ret] is [b] extended by [size] bytes, [tar] the
    window [ret[len(b):newLen]] of the new bytes.  The sum [newLen] is
    not wrapped: this is the [int] sum of the source as long as
    [len(b) + size] stays below [2^63]. *)
Definition ensure (size : Z) (b : slice) : M (slice * slice) :=
  let newLen := Len b + size in
  ret <- (if Cap b >=? newLen then sub b 0 newLen
          else zeros <- (t <- make size size ;; load t) ;; append b zeros) ;;
  tar <- sub ret (Len b) newLen ;;
  mret (ret, tar).

(** [grow(b, n)]: [b] itself when more than [n] cells are spare, else
    [append(b, make([]byte, n)...)[:len(b)]]. *)
Definition grow (b : slice) (n : Z) : M slice :=
  if Cap b - Len b >? n then mret b
  else
    zeros <- (t <- make n n ;; load t) ;;
    b' <- append b zeros ;;
    sub b' 0 (Len b).

(** [AppendTime]: the local array [src] receives the bytes 4..0 of the
    second count, which [Encode] turns into the 8 characters of [tar]. *)
Definition AppendTime (e : Encoding) (t : Time_t) (dst : slice) : M slice :=
  let ut := Unix t in
  src <- new_array (replicate 5 x00) ;;
  store src 0 (byte_of_Z (Z.shiftr ut 32)) ;;;
  store src 1 (byte_of_Z (Z.shiftr ut 24)) ;;;
  store src 2 (byte_of_Z (Z.shiftr ut 16)) ;;;
  store src 3 (byte_of_Z (Z.shiftr ut 8)) ;;;
  store src 4 (byte_of_Z ut) ;;;
  rt <- ensure LenTime dst ;;
  let '(ret, tar) := rt in
  Encode e tar src ;;;
  mret ret.

Definition Time (e : Encoding) (t : Time_t) : M (list byte) :=
  r <- AppendTime e t nil_slice ;; load r.

(** The loop [for _, c := range src] of [AppendNormalized]; [n] counts
    the iterations left and [i] is the index of the next element. *)
Fixpoint norm_loop (n : nat) (src : slice) (i : Z) (dst : slice) : M slice :=
  match n with
  | O => mret dst
  | S n' =>
      c <- index src i ;;
      dst' <- (let r := normUpper c in
               if negb (Byte.eqb r x00) then append dst [r] else mret dst) ;;
      norm_loop n' src (i + 1) dst'
  end.

(** [AppendNormalized]: a [dst] without capacity is replaced by a fresh
    buffer with room for [len(src)] bytes. *)
Definition AppendNormalized (dst src : slice) : M slice :=
  dst <- (if Cap dst =? 0 then make 0 (Len src) else mret dst) ;;
  norm_loop (len src) src 0 dst.

(** [Normalized(s)]: [[]byte(s)] is a fresh copy of the string. *)
Definition Normalized (s : list byte) : M (list byte) :=
  src <- new_array s ;;
  r <- AppendNormalized nil_slice src ;;
  load r.

(** [AppendRandom]: [src] and [tar] are windows of the spare cells of
    [dst] that start at the same cell; [rand.Read] fills [src], or the
    function panics with its error. *)
Definition AppendRandom (e : Encoding) (dst : slice) : M slice :=
  dst <- grow dst LenRandom ;;
  src <- sub dst (Len dst) (Len dst + 5) ;;
  match rand_Read (len src) with
  | ReadErr err => panic err
  | ReadOk bs => store_list src 0 (take (len src) bs)
  end ;;;
  tar <- sub dst (Len dst) (Len dst + LenRandom) ;;
  Encode e tar src ;;;
  sub dst 0 (Len dst + LenRandom).

Definition Random (e : Encoding) : M (list byte) :=
  r <- AppendRandom e nil_slice ;; load r.

(** [AppendMD5]: [h.Write(src)] reads the bytes of [src]; [h.Sum(buf[:0])]
    appends their digest to the empty prefix of the local array [buf]. *)
Definition AppendMD5 (e : Encoding) (dst src : slice) : M slice :=
  buf <- new_array (replicate 16 x00) ;;
  m <- load src ;;
  (buf0 <- sub buf 0 0 ;; append buf0 (md5_Sum m)) ;;;
  rt <- ensure LenMD5 dst ;;
  let '(ret, tar) := rt in
  Encode e tar buf ;;;
  mret ret.

Definition MD5 (e : Encoding) (src : slice) : M (list byte) :=
  r <- AppendMD5 e nil_slice src ;; load r.

End Runtime.

(** ** Vocabulary of the statements *)

(** The bytes read as one big-endian base-256 numeral, continuing from
    the value [acc] of the bytes already read. *)
Definition be_value_from (acc : Z) (b : list byte) : Z :=
  fold_left (fun v c => v * 256 + int_of_byte c) b acc.

Definition be_value (b : list byte) : Z := be_value_from 0 b.

Definition checksum_alphabet (uppercase : bool) : list byte :=
  if uppercase then UppercaseChecksum else LowercaseChecksum.

(** A write through [t] at index [i] stays inside the array of [t]. *)
Definition in_bounds (h : heap) (t : slice) (i : nat) (xs : list byte) : Prop :=
  (off t + i + length xs <= length (array_at h (ptr t)))%nat.

(** [Encoding.EncodedLen(n)]. *)
Definition EncodedLen (e : Encoding) (n : nat) : nat :=
  match padChar e with
  | None => (n / 5 * 8 + (n mod 5 * 8 + 4) / 5)%nat
  | Some _ => ((n + 4) / 5 * 8)%nat
  end.

(** The bytes of [l] are pairwise different. *)
Fixpoint distinct (l : list byte) : bool :=
  match l with
  | [] => true
  | a :: tl => negb (existsb (Byte.eqb a) tl) && distinct tl
  end.

(** [c] is one of the 37 symbols of the uppercase checksum alphabet. *)
Definition canonical (c : byte) : bool := existsb (Byte.eqb c) UppercaseChecksum.

(** A size every Go runtime with a 64-bit [int] allocates, memory
    permitting: the allocation limit of the runtime is [2^48] bytes on
    most platforms, [2^40] on ios/arm64 and [2^32] on wasm.  Below it no
    length or capacity wraps, [make] does not refuse the size and
    [append] does not refuse the new capacity. *)
Definition alloc_bound : Z := 2 ^ 32.

(** From [h] to [h'] no byte changes outside the spare capacity of [dst]:
    a slice of [h] that lies in another array than [dst], or ends no
    later than [dst] ends, holds the same bytes in [h']. *)
Definition keeps_other_bytes (h h' : heap) (dst : slice) : Prop :=
  forall t, wf_slice h t ->
    ptr t <> ptr dst \/ (off t + len t <= off dst + len dst)%nat ->
    contents h' t = contents h t.

(** The bytes [normUpper] has a case for: the 37 uppercase symbols, the
    23 lowercase letters and the four look-alikes of 0 and 1. *)
Definition kept (c : byte) : bool :=
  existsb (Byte.eqb c)
    (UppercaseChecksum ++ bytes "abcdefghjkmnpqrstvwxyzu" ++ bytes "OoIi").

(** ** Sample inputs *)

(** A growth policy for [append]: the capacity doubles unless more is
    needed, so the new array has [max n (2 * c)] cells. *)
Definition doubling_slack (c n : nat) : nat := (2 * c - n)%nat.

(** A heap with one array of 16 cells, and a buffer over it that holds
    ["id-"] and has 13 cells to spare. *)
Definition sample_heap : heap := [bytes "id-" ++ replicate 13 x00].
Definition sample_dst : slice := {| ptr := 0; off := 0; len := 3; cap := 16 |}.

(** The bytes ["id"] of the same array, seen as a source. *)
Definition sample_src : slice := {| ptr := 0; off := 0; len := 2; cap := 2 |}.

(** A random source that works and one that fails. *)
Definition steady_source (n : nat) : read_outcome := ReadOk (replicate n "A"%byte).
Definition failing_source (n : nat) : read_outcome := ReadErr "entropy source failure".

(** Another heap, in which the bytes ["id"] lie at offset 1. *)
Definition other_heap : heap := [bytes "xid"].
Definition other_src : slice := {| ptr := 0; off := 1; len := 2; cap := 2 |}.

(** A stand-in for the digest function: 16 bytes, whatever the input. *)
Definition constant_digest (m : list byte) : list byte := replicate 16 "z"%byte.

(** * Properties *)

(** ** Bytes *)

Lemma int_of_byte_range (c : byte) : 0 <= int_of_byte c < 256.
Proof.
  unfold int_of_byte. pose proof (Byte.to_N_bounded c). lia.
Qed.

Lemma int_of_byte_of_Z (x : Z) : int_of_byte (byte_of_Z x) = x mod 256.
Proof.
  unfold byte_of_Z, int_of_byte.
  pose proof (Z.mod_pos_bound x 256 eq_refl) as Hb.
  destruct (Byte.of_N (Z.to_N (x mod 256))) as [b|] eqn:E.
  - apply Byte.to_of_N in E. rewrite E. lia.
  - apply Byte.of_N_None_iff in E. lia.
Qed.

Lemma byte_of_int_of_byte (c : byte) : byte_of_Z (int_of_byte c) = c.
Proof.
  unfold byte_of_Z. pose proof (int_of_byte_range c) as Hc.
  rewrite Z.mod_small by lia. unfold int_of_byte.
  rewrite N2Z.id, Byte.of_to_N. reflexivity.
Qed.

Lemma int_of_byte_inj (c d : byte) : int_of_byte c = int_of_byte d -> c = d.
Proof.
  intros E. rewrite <- (byte_of_int_of_byte c), <- (byte_of_int_of_byte d).
  now rewrite E.
Qed.

Lemma wrap64_small (x : Z) : - 2 ^ 63 <= x < 2 ^ 63 -> wrap64 x = x.
Proof.
  intros Hx. unfold wrap64. rewrite Z.mod_small; lia.
Qed.

(** ** Checksum *)

Lemma be_value_from_mod (m : Z) (b : list byte) :
  forall acc acc', acc mod m = acc' mod m ->
    be_value_from acc b mod m = be_value_from acc' b mod m.
Proof.
  induction b as [|c b IH]; intros acc acc' E; simpl; [exact E|].
  apply IH. destruct (Z.eq_dec m 0) as [->|Hm].
  - rewrite !Z.mod_0_r in *. now subst.
  - rewrite (Z.add_mod (acc * 256)), (Z.add_mod (acc' * 256)),
      (Z.mul_mod acc), (Z.mul_mod acc'), E by exact Hm.
    reflexivity.
Qed.

Lemma mod_loop_spec (b : list byte) :
  forall rem, 0 <= rem < 37 ->
    mod_loop b 37 rem = Ok (be_value_from rem b mod 37).
Proof.
  induction b as [|c b IH]; intros rem Hrem; simpl.
  - now rewrite Z.mod_small.
  - pose proof (int_of_byte_range c) as Hc.
    rewrite Z.mul_1_r, (wrap64_small rem) by lia.
    rewrite Z.shiftl_mul_pow2 by lia. change (2 ^ 8) with 256.
    rewrite (wrap64_small (rem * 256)) by lia.
    rewrite (wrap64_small (rem * 256 + int_of_byte c)) by lia.
    unfold int_rem; simpl.
    rewrite Z.rem_mod_nonneg by lia.
    pose proof (Z.mod_pos_bound (rem * 256 + int_of_byte c) 37 eq_refl) as Hm.
    rewrite wrap64_small by lia.
    rewrite IH by lia.
    f_equal. apply be_value_from_mod. now rewrite Z.mod_mod.
Qed.

Lemma mod_37_spec (b : list byte) : mod_ b 37 = Ok (be_value b mod 37).
Proof. apply mod_loop_spec. lia. Qed.

(** C2. [Checksum(body, uppercase)] is the character at index [V mod 37]
    of the selected 37-symbol checksum alphabet, [V] being [body] read as
    a big-endian base-256 integer; the loop of [mod] computes [V mod 37]. *)
Theorem Checksum_is_symbol_of_value_mod_37 (body : list byte) (uppercase : bool) :
  length (checksum_alphabet uppercase) = 37%nat /\
  mod_ body 37 = Ok (be_value body mod 37) /\
  exists c : byte,
    Checksum body uppercase = Ok c /\
    checksum_alphabet uppercase !! Z.to_nat (be_value body mod 37) = Some c.
Proof.
  split; [now destruct uppercase|].
  split; [apply mod_37_spec|].
  pose proof (Z.mod_pos_bound (be_value body) 37 eq_refl) as Hm.
  assert (Hlen : length (checksum_alphabet uppercase) = 37%nat)
    by now destruct uppercase.
  exists (nth (Z.to_nat (be_value body mod 37)) (checksum_alphabet uppercase) x00).
  split.
  - unfold Checksum. rewrite mod_37_spec. cbn [rbind].
    fold (checksum_alphabet uppercase). unfold string_index.
    rewrite Hlen.
    rewrite (proj2 (Z.leb_le _ _)), (proj2 (Z.ltb_lt _ _)) by lia.
    reflexivity.
  - destruct (nth_lookup_or_length (checksum_alphabet uppercase)
                (Z.to_nat (be_value body mod 37)) x00) as [E|E]; [exact E|lia].
Qed.

(** C10. The checksum of the empty byte sequence is ['0'] in both the
    lowercase and the uppercase checksum alphabet. *)
Theorem Checksum_empty :
  Checksum [] false = Ok "0"%byte /\ Checksum [] true = Ok "0"%byte /\
  mod_ [] 37 = Ok 0 /\
  LowercaseChecksum !! 0%nat = Some "0"%byte /\
  UppercaseChecksum !! 0%nat = Some "0"%byte.
Proof. repeat split; reflexivity. Qed.

(** ** Arrays, windows and writes *)

Lemma array_at_app_l (h ext : heap) (p : nat) :
  (p < length h)%nat -> array_at (h ++ ext) p = array_at h p.
Proof. intros Hp. unfold array_at. now rewrite lookup_app_l. Qed.

Lemma array_at_app_new (h ext : heap) (a : list byte) :
  array_at (h ++ a :: ext) (length h) = a.
Proof. unfold array_at. now rewrite list_lookup_middle. Qed.

Lemma array_at_ge (h : heap) (p : nat) :
  (length h <= p)%nat -> array_at h p = [].
Proof. intros Hp. unfold array_at. now rewrite lookup_ge_None_2. Qed.

Lemma array_at_insert_eq (h : heap) (p : nat) (a : list byte) :
  (p < length h)%nat -> array_at (<[p := a]> h) p = a.
Proof. intros Hp. unfold array_at. now rewrite list_lookup_insert_eq. Qed.

Lemma array_at_insert_ne (h : heap) (p q : nat) (a : list byte) :
  p <> q -> array_at (<[p := a]> h) q = array_at h q.
Proof. intros Hp. unfold array_at. now rewrite list_lookup_insert_ne. Qed.

Lemma array_at_nonempty (h : heap) (p : nat) :
  (0 < length (array_at h p))%nat -> (p < length h)%nat.
Proof.
  intros Hl. destruct (Nat.lt_ge_cases p (length h)) as [|Hge]; [assumption|].
  rewrite array_at_ge in Hl by exact Hge. simpl in Hl. lia.
Qed.

Lemma length_overwrite (i : nat) (xs arr : list byte) :
  (i + length xs <= length arr)%nat -> length (overwrite i xs arr) = length arr.
Proof.
  intros Hb. unfold overwrite.
  rewrite !length_app, length_take, length_drop. lia.
Qed.

Lemma overwrite_nil (i : nat) (arr : list byte) : overwrite i [] arr = arr.
Proof. unfold overwrite. simpl. rewrite Nat.add_0_r. apply take_drop. Qed.

(** A window that ends before the write is untouched. *)
Lemma window_overwrite_before (o n i : nat) (xs arr : list byte) :
  (o + n <= i)%nat -> (i <= length arr)%nat ->
  take n (drop o (overwrite i xs arr)) = take n (drop o arr).
Proof.
  intros Hb Hi. unfold overwrite.
  rewrite drop_app_le by (rewrite length_take; lia).
  rewrite take_app_le by (rewrite length_drop, length_take; lia).
  rewrite skipn_firstn_comm, take_take. f_equal. lia.
Qed.

(** The window just written holds what was written. *)
Lemma window_overwrite_exact (i : nat) (xs arr : list byte) :
  (i <= length arr)%nat ->
  take (length xs) (drop i (overwrite i xs arr)) = xs.
Proof.
  intros Hi. unfold overwrite.
  rewrite drop_app_length' by (rewrite length_take; lia).
  now rewrite take_app_length.
Qed.

(** A window that starts after the write is untouched. *)
Lemma window_overwrite_after (o i : nat) (xs arr : list byte) :
  (i + length xs <= o)%nat -> (i + length xs <= length arr)%nat ->
  drop o (overwrite i xs arr) = drop o arr.
Proof.
  intros Ho Hb. unfold overwrite.
  rewrite drop_app_ge by (rewrite length_take; lia).
  rewrite length_take, drop_app_ge by lia.
  rewrite drop_drop. f_equal. lia.
Qed.

Lemma window_split (n m o : nat) (l : list byte) :
  take (n + m) (drop o l) = take n (drop o l) ++ take m (drop (o + n) l).
Proof.
  rewrite <- (take_drop n (drop o l)) at 1.
  destruct (Nat.le_gt_cases n (length (drop o l))) as [Hn|Hn].
  - rewrite take_app_add' by (rewrite length_take; lia).
    now rewrite drop_drop.
  - rewrite (take_ge (drop o l) n) by lia.
    rewrite (drop_ge (drop o l) n) by lia. rewrite app_nil_r.
    rewrite take_ge by lia.
    rewrite (drop_ge l (o + n)); [now rewrite take_nil, app_nil_r|].
    rewrite length_drop in Hn. lia.
Qed.

(** Two adjacent writes are one write. *)
Lemma overwrite_overwrite (i : nat) (xs ys arr : list byte) :
  (i + length xs + length ys <= length arr)%nat ->
  overwrite (i + length xs) ys (overwrite i xs arr) = overwrite i (xs ++ ys) arr.
Proof.
  intros Hb. unfold overwrite at 1.
  rewrite window_overwrite_after by lia.
  unfold overwrite.
  rewrite take_app_ge by (rewrite length_take; lia).
  rewrite length_take, take_app_ge by lia.
  replace (i + length xs - i `min` length arr - length xs)%nat with 0%nat by lia.
  rewrite take_0, app_nil_r, length_app, <- !app_assoc.
  now rewrite Nat.add_assoc.
Qed.

(** ** Slices in a heap *)

Lemma length_contents (h : heap) (s : slice) :
  wf_slice h s -> length (contents h s) = len s.
Proof.
  intros [Hl Hc]. unfold contents. rewrite length_take, length_drop. lia.
Qed.

Lemma wf_ptr (h : heap) (s : slice) :
  wf_slice h s -> (0 < cap s)%nat -> (ptr s < length h)%nat.
Proof. intros [Hl Hc] Hpos. apply array_at_nonempty. lia. Qed.

Lemma wf_nil_slice (h : heap) : wf_slice h nil_slice.
Proof. split; simpl; lia. Qed.

Lemma wf_app (h ext : heap) (s : slice) :
  wf_slice h s -> wf_slice (h ++ ext) s.
Proof.
  intros [Hl Hc]. split; [exact Hl|].
  destruct (Nat.lt_ge_cases (ptr s) (length h)) as [Hp|Hp].
  - now rewrite array_at_app_l.
  - rewrite array_at_ge in Hc by exact Hp. simpl in Hc. lia.
Qed.

Lemma contents_app (h ext : heap) (s : slice) :
  wf_slice h s -> contents (h ++ ext) s = contents h s.
Proof.
  intros [Hl Hc]. unfold contents.
  destruct (Nat.lt_ge_cases (ptr s) (length h)) as [Hp|Hp].
  - now rewrite array_at_app_l.
  - rewrite (array_at_ge h) in * by exact Hp. simpl in Hc.
    replace (len s) with 0%nat by lia. reflexivity.
Qed.

Lemma length_heap_write (h : heap) (t : slice) (i : nat) (xs : list byte) :
  length (heap_write h t i xs) = length h.
Proof. unfold heap_write. apply length_insert. Qed.

Lemma array_at_heap_write_ne (h : heap) (t : slice) (i : nat) (xs : list byte) (q : nat) :
  q <> ptr t -> array_at (heap_write h t i xs) q = array_at h q.
Proof. intros Hq. unfold heap_write. apply array_at_insert_ne. congruence. Qed.

Lemma array_at_heap_write_eq (h : heap) (t : slice) (i : nat) (xs : list byte) :
  in_bounds h t i xs ->
  array_at (heap_write h t i xs) (ptr t)
  = overwrite (off t + i) xs (array_at h (ptr t)).
Proof.
  intros Hb. unfold heap_write, in_bounds in *.
  destruct (Nat.lt_ge_cases (ptr t) (length h)) as [Hp|Hp].
  - now rewrite array_at_insert_eq.
  - rewrite list_insert_ge by exact Hp.
    rewrite (array_at_ge h) in * by exact Hp. simpl in Hb.
    destruct xs; [|simpl in Hb; lia].
    now rewrite overwrite_nil.
Qed.

Lemma length_array_heap_write (h : heap) (t : slice) (i : nat) (xs : list byte) (q : nat) :
  in_bounds h t i xs ->
  length (array_at (heap_write h t i xs) q) = length (array_at h q).
Proof.
  intros Hb. destruct (Nat.eq_dec q (ptr t)) as [->|Hq].
  - rewrite array_at_heap_write_eq by exact Hb.
    apply length_overwrite. exact Hb.
  - now rewrite array_at_heap_write_ne.
Qed.

Lemma wf_heap_write (h : heap) (t : slice) (i : nat) (xs : list byte) (s : slice) :
  in_bounds h t i xs -> wf_slice h s -> wf_slice (heap_write h t i xs) s.
Proof.
  intros Hb [Hl Hc]. split; [exact Hl|].
  now rewrite length_array_heap_write.
Qed.

Lemma contents_heap_write_other (h : heap) (t : slice) (i : nat) (xs : list byte) (s : slice) :
  ptr s <> ptr t -> contents (heap_write h t i xs) s = contents h s.
Proof. intros Hp. unfold contents. now rewrite array_at_heap_write_ne. Qed.

Lemma contents_heap_write_before (h : heap) (t : slice) (i : nat) (xs : list byte) (s : slice) :
  in_bounds h t i xs -> (off s + len s <= off t + i)%nat ->
  contents (heap_write h t i xs) s = contents h s.
Proof.
  intros Hb Hs. destruct (Nat.eq_dec (ptr s) (ptr t)) as [E|Hq].
  - unfold contents. rewrite E, array_at_heap_write_eq by exact Hb.
    apply window_overwrite_before; [exact Hs|]. unfold in_bounds in Hb. lia.
  - now apply contents_heap_write_other.
Qed.

Lemma contents_heap_write_exact (h : heap) (t : slice) (i : nat) (xs : list byte) (s : slice) :
  in_bounds h t i xs ->
  ptr s = ptr t -> off s = (off t + i)%nat -> len s = length xs ->
  contents (heap_write h t i xs) s = xs.
Proof.
  intros Hb Ep Eo El. unfold contents.
  rewrite Ep, Eo, El, array_at_heap_write_eq by exact Hb.
  apply window_overwrite_exact. unfold in_bounds in Hb. lia.
Qed.

(** A slice that ends where the write ends: its old prefix, then the
    bytes written. *)
Lemma contents_heap_write_suffix (h : heap) (t : slice) (i : nat) (xs : list byte) (s : slice) (n : nat) :
  in_bounds h t i xs ->
  ptr s = ptr t -> (off s + n = off t + i)%nat -> len s = (n + length xs)%nat ->
  contents (heap_write h t i xs) s = take n (drop (off s) (array_at h (ptr s))) ++ xs.
Proof.
  intros Hb Ep Eo El. unfold contents.
  rewrite El, window_split. f_equal.
  - rewrite Ep, array_at_heap_write_eq by exact Hb.
    apply window_overwrite_before; [lia|]. unfold in_bounds in Hb. lia.
  - rewrite Ep, Eo, array_at_heap_write_eq by exact Hb.
    apply window_overwrite_exact. unfold in_bounds in Hb. lia.
Qed.

Lemma heap_write_heap_write (h : heap) (t : slice) (i : nat) (xs ys : list byte) (t' : slice) :
  in_bounds h t i (xs ++ ys) ->
  ptr t' = ptr t -> off t' = (off t + i + length xs)%nat ->
  heap_write (heap_write h t i xs) t' 0 ys = heap_write h t i (xs ++ ys).
Proof.
  intros Hb Ep Eo.
  assert (Hb1 : in_bounds h t i xs).
  { unfold in_bounds in *. rewrite length_app in Hb. lia. }
  unfold heap_write at 1. rewrite Ep, array_at_heap_write_eq by exact Hb1.
  rewrite Eo, Nat.add_0_r, overwrite_overwrite.
  - unfold heap_write. apply list_insert_insert_eq.
  - unfold in_bounds in Hb. rewrite length_app in Hb. lia.
Qed.

Lemma heap_write_nil (h : heap) (t : slice) (i : nat) : heap_write h t i [] = h.
Proof.
  unfold heap_write. rewrite overwrite_nil. unfold array_at.
  destruct (h !! ptr t) as [a|] eqn:E; simpl.
  - now apply list_insert_id.
  - apply list_insert_ge. now apply lookup_ge_None_1.
Qed.

(** ** The base32 transform *)

Lemma length_groups (n : nat) (v : Z) : length (groups n v) = n.
Proof. induction n as [|n IH]; simpl; [reflexivity|now rewrite IH]. Qed.

Lemma length_quantum_chars (e : Encoding) (q : list byte) :
  (length q <= 5)%nat ->
  length (quantum_chars e q)
  = match padChar e with
    | None => quantum_len (length q)
    | Some _ => 8%nat
    end.
Proof.
  intros Hq. unfold quantum_chars.
  assert (Hn : (quantum_len (length q) <= 8)%nat) by (unfold quantum_len; lia).
  rewrite length_app, length_map, length_take, length_groups.
  destruct (padChar e); [rewrite length_replicate|simpl]; lia.
Qed.

Lemma length_encode_bytes (e : Encoding) (fuel : nat) :
  forall bs, (length bs <= fuel)%nat ->
    length (encode_bytes fuel e bs) = EncodedLen e (length bs).
Proof.
  induction fuel as [|fuel IH]; intros bs Hbs.
  - destruct bs; [|simpl in Hbs; lia].
    unfold EncodedLen. now destruct (padChar e).
  - destruct bs as [|b bs'] eqn:Ebs.
    { unfold EncodedLen. now destruct (padChar e). }
    rewrite <- Ebs in *. assert (Hpos : (0 < length bs)%nat) by (subst bs; simpl; lia).
    replace (encode_bytes (S fuel) e bs)
      with (quantum_chars e (take 5 bs) ++ encode_bytes fuel e (drop 5 bs))
      by (subst bs; reflexivity).
    rewrite length_app, length_quantum_chars by (rewrite length_take; lia).
    rewrite IH by (rewrite length_drop; lia).
    rewrite length_take, length_drop.
    unfold EncodedLen, quantum_len. destruct (padChar e).
    + destruct (Nat.le_gt_cases 5 (length bs)).
      * replace (5 `min` length bs)%nat with 5%nat by lia. lia.
      * lia.
    + destruct (Nat.le_gt_cases 5 (length bs)).
      * replace (5 `min` length bs)%nat with 5%nat by lia. lia.
      * replace (5 `min` length bs)%nat with (length bs) by lia. lia.
Qed.

Lemma EncodeToString_length (e : Encoding) (bs : list byte) :
  length (EncodeToString e bs) = EncodedLen e (length bs).
Proof. apply length_encode_bytes. lia. Qed.

(** ** Running the primitives *)

Lemma sub_ok (s : slice) (lo hi : Z) (h : heap) :
  0 <= lo <= hi -> hi <= Cap s ->
  sub s lo hi h
  = Ok ({| ptr := ptr s; off := off s + Z.to_nat lo;
           len := Z.to_nat (hi - lo); cap := cap s - Z.to_nat lo |}, h).
Proof.
  intros Hlo Hhi. unfold sub.
  replace ((0 <=? lo) && (lo <=? hi) && (hi <=? Z.of_nat (cap s))) with true
    by (unfold Cap in Hhi; lia).
  reflexivity.
Qed.

Lemma store_list_ok (s : slice) (i : Z) (xs : list byte) (h : heap) :
  0 <= i -> i + Z.of_nat (length xs) <= Len s ->
  store_list s i xs h = Ok (tt, heap_write h s (Z.to_nat i) xs).
Proof.
  intros Hi Hb. unfold store_list.
  replace ((0 <=? i) && (i + Z.of_nat (length xs) <=? Z.of_nat (len s))) with true
    by (unfold Len in Hb; lia).
  reflexivity.
Qed.

Lemma make_ok (n c : Z) (h : heap) :
  0 <= n <= c ->
  make n c h
  = Ok ({| ptr := length h; off := 0; len := Z.to_nat n; cap := Z.to_nat c |},
        h ++ [replicate (Z.to_nat c) x00]).
Proof.
  intros Hn. unfold make.
  replace ((0 <=? n) && (n <=? c)) with true by lia.
  reflexivity.
Qed.

Lemma wf_sub (h : heap) (s : slice) (lo hi : nat) :
  wf_slice h s -> (lo <= hi <= cap s)%nat ->
  wf_slice h {| ptr := ptr s; off := off s + lo; len := hi - lo; cap := cap s - lo |}.
Proof. intros [Hl Hc] Hb. split; simpl; lia. Qed.

Lemma contents_sub (h : heap) (s : slice) (lo hi c : nat) :
  (lo <= hi <= len s)%nat ->
  contents h {| ptr := ptr s; off := off s + lo; len := hi - lo; cap := c |}
  = take (hi - lo) (drop lo (contents h s)).
Proof.
  intros Hb. unfold contents; simpl.
  rewrite skipn_firstn_comm, take_take, drop_drop. f_equal. lia.
Qed.

Lemma encode_bytes_nil (e : Encoding) (fuel : nat) : encode_bytes fuel e [] = [].
Proof. now destruct fuel. Qed.

Lemma encode_bytes_step (e : Encoding) (fuel : nat) (bs : list byte) :
  (0 < length bs)%nat ->
  encode_bytes (S fuel) e bs
  = quantum_chars e (take 5 bs) ++ encode_bytes fuel e (drop 5 bs).
Proof. intros Hbs. destruct bs; [simpl in Hbs; lia|reflexivity]. Qed.

(** [Encode] on well-formed slices: when [dst] has room for the encoded
    length, and [src] either lies in another array than [dst] or is a
    single quantum, it writes the encoding of the bytes of [src] at the
    start of [dst]. *)
Lemma Encode_loop_spec (e : Encoding) (fuel : nat) :
  forall (dst src : slice) (h : heap),
    (len src <= fuel)%nat ->
    wf_slice h src -> wf_slice h dst ->
    ptr dst <> ptr src \/ (len src <= 5)%nat ->
    (EncodedLen e (len src) <= len dst)%nat ->
    Encode_loop fuel e dst src h
    = Ok (tt, heap_write h dst 0 (encode_bytes fuel e (contents h src))).
Proof.
  induction fuel as [|fuel IH]; intros dst src h Hfuel Hsrc Hdst Halias Hroom.
  - simpl. now rewrite heap_write_nil.
  - pose proof (length_contents h src Hsrc) as Hlen.
    simpl Encode_loop. unfold Len.
    destruct (Z.of_nat (len src) =? 0) eqn:E0.
    + assert (Hnil : contents h src = []) by (apply length_zero_iff_nil; lia).
      rewrite Hnil. simpl. now rewrite heap_write_nil.
    + pose proof Hsrc as [Hsl Hsc]. pose proof Hdst as [Hdl Hdc].
      unfold bind at 1. unfold bind at 1.
      rewrite sub_ok by (unfold Cap; lia).
      unfold load.
      assert (Eq : contents h {| ptr := ptr src; off := off src + Z.to_nat 0;
                                 len := Z.to_nat (Z.min 5 (Z.of_nat (len src)) - 0);
                                 cap := cap src - Z.to_nat 0 |}
                   = take 5 (contents h src)).
      { unfold contents; simpl. rewrite Nat.add_0_r, take_take. f_equal. lia. }
      rewrite Eq. set (q := take 5 (contents h src)).
      assert (Hq : length q = (5 `min` len src)%nat)
        by (unfold q; rewrite length_take; lia).
      pose proof (length_quantum_chars e q ltac:(lia)) as Hchars.
      assert (Hfit : (length (quantum_chars e q) <= len dst)%nat).
      { revert Hroom. rewrite Hchars. unfold EncodedLen, quantum_len.
        rewrite Hq. destruct (padChar e); lia. }
      unfold bind at 1.
      rewrite store_list_ok by (unfold Len; lia).
      change (Z.to_nat 0) with 0%nat.
      assert (Hb1 : in_bounds h dst 0 (quantum_chars e q))
        by (unfold in_bounds; lia).
      destruct (Z.of_nat (len src) <? 5) eqn:E5.
      * unfold mret. do 2 f_equal.
        rewrite encode_bytes_step by lia.
        rewrite (drop_ge (contents h src)) by lia.
        now rewrite encode_bytes_nil, app_nil_r.
      * assert (Hchars8 : length (quantum_chars e q) = 8%nat).
        { rewrite Hchars, Hq. unfold quantum_len.
          replace (5 `min` len src)%nat with 5%nat by lia.
          now destruct (padChar e). }
        unfold bind at 1. rewrite sub_ok by (unfold Cap; lia).
        unfold bind at 1. rewrite sub_ok by (unfold Cap, Len; lia).
        change (Z.to_nat 5) with 5%nat. change (Z.to_nat 8) with 8%nat.
        replace (Z.to_nat (Z.of_nat (len src) - 5)) with (len src - 5)%nat by lia.
        replace (Z.to_nat (Z.of_nat (len dst) - 8)) with (len dst - 8)%nat by lia.
        set (src' := {| ptr := ptr src; off := off src + 5;
                        len := len src - 5; cap := cap src - 5 |}).
        set (dst' := {| ptr := ptr dst; off := off dst + 8;
                        len := len dst - 8; cap := cap dst - 8 |}).
        set (h1 := heap_write h dst 0 (quantum_chars e q)).
        assert (Hrest : contents h1 src' = drop 5 (contents h src)).
        { destruct Halias as [Hne|H5].
          - unfold h1. rewrite contents_heap_write_other by (simpl; congruence).
            unfold src'. rewrite (contents_sub h src 5 (len src)) by lia.
            apply take_ge. rewrite length_drop. lia.
          - rewrite (drop_ge (contents h src)) by lia.
            apply length_zero_iff_nil.
            unfold contents, src'; simpl. rewrite length_take. lia. }
        rewrite IH.
        -- rewrite Hrest. unfold h1.
           rewrite heap_write_heap_write.
           ++ now rewrite (encode_bytes_step e fuel (contents h src)) by lia.
           ++ unfold in_bounds. rewrite length_app, Hchars8.
              rewrite length_encode_bytes by (rewrite length_drop; lia).
              rewrite length_drop, Hlen.
              assert (EncodedLen e (len src - 5) + 8 <= len dst)%nat.
              { revert Hroom. unfold EncodedLen. destruct (padChar e); lia. }
              lia.
           ++ reflexivity.
           ++ simpl. rewrite Hchars8. lia.
        -- simpl. lia.
        -- apply wf_heap_write; [exact Hb1|].
           apply (wf_sub h src 5 (len src)); [exact Hsrc|lia].
        -- apply wf_heap_write; [exact Hb1|].
           split; simpl; lia.
        -- destruct Halias as [Hne|H5]; [left; exact Hne|right; simpl; lia].
        -- simpl. revert Hroom. unfold EncodedLen. destruct (padChar e); lia.
Qed.

Lemma Encode_spec (e : Encoding) (dst src : slice) (h : heap) :
  wf_slice h src -> wf_slice h dst ->
  ptr dst <> ptr src \/ (len src <= 5)%nat ->
  (EncodedLen e (len src) <= len dst)%nat ->
  Encode e dst src h
  = Ok (tt, heap_write h dst 0 (EncodeToString e (contents h src))).
Proof.
  intros Hsrc Hdst Halias Hroom. unfold Encode, EncodeToString.
  rewrite (length_contents h src Hsrc).
  now apply Encode_loop_spec.
Qed.

Lemma contents_new (h ext : heap) (xs : list byte) (n c : nat) :
  n = length xs ->
  contents (h ++ xs :: ext) {| ptr := length h; off := 0; len := n; cap := c |} = xs.
Proof.
  intros ->. unfold contents; simpl.
  rewrite array_at_app_new. apply take_ge. lia.
Qed.

Lemma heap_write_new (h : heap) (arr xs : list byte) (o n c i : nat) :
  heap_write (h ++ [arr]) {| ptr := length h; off := o; len := n; cap := c |} i xs
  = h ++ [overwrite (o + i) xs arr].
Proof.
  unfold heap_write; simpl. rewrite array_at_app_new.
  rewrite insert_app_r_alt by lia. now rewrite Nat.sub_diag.
Qed.

(** ** Bits of the time *)

Lemma testbit_time_byte (ut k n : Z) :
  0 <= k -> 0 <= n ->
  Z.testbit (Z.shiftl (int_of_byte (byte_of_Z (Z.shiftr ut k))) k) n
  = (k <=? n) && (n <? k + 8) && Z.testbit ut n.
Proof.
  intros Hk Hn. rewrite int_of_byte_of_Z. change 256 with (2 ^ 8).
  rewrite Z.shiftl_spec by exact Hn.
  destruct (Z.leb_spec k n) as [Hle|Hlt].
  - rewrite Z.testbit_mod_pow2, Z.shiftr_spec by lia.
    replace (n - k + k) with n by lia.
    replace (n - k <? 8) with (n <? k + 8) by lia. reflexivity.
  - now rewrite Z.testbit_neg_r by lia.
Qed.

(** The five bytes taken by [AppendTime] hold the low 40 bits of the
    second count. *)
Lemma quantum_value_time_bytes (ut : Z) :
  quantum_value (time_bytes ut) = ut mod 2 ^ 40.
Proof.
  unfold quantum_value, time_bytes. cbn [nth].
  rewrite <- (Z.shiftl_0_r (int_of_byte (byte_of_Z ut))).
  rewrite <- (Z.shiftr_0_r ut) at 5.
  apply Z.bits_inj'. intros n Hn.
  rewrite !Z.lor_spec, !testbit_time_byte, Z.testbit_mod_pow2 by lia.
  destruct (Z.testbit ut n); lia.
Qed.

Lemma time_bytes_mod (ut : Z) : time_bytes (ut mod 2 ^ 40) = time_bytes ut.
Proof.
  assert (Hbyte : forall k, 0 <= k <= 32 ->
            byte_of_Z (Z.shiftr (ut mod 2 ^ 40) k) = byte_of_Z (Z.shiftr ut k)).
  { intros k Hk. apply int_of_byte_inj. rewrite !int_of_byte_of_Z.
    change 256 with (2 ^ 8). apply Z.bits_inj'. intros n Hn.
    rewrite !Z.testbit_mod_pow2, !Z.shiftr_spec, Z.testbit_mod_pow2 by lia.
    destruct (Z.testbit ut (n + k)); lia. }
  unfold time_bytes.
  rewrite !Hbyte by lia.
  rewrite <- (Z.shiftr_0_r (ut mod 2 ^ 40)), Hbyte, Z.shiftr_0_r by lia.
  reflexivity.
Qed.

Lemma time_chars_groups (e : Encoding) (ut : Z) :
  time_chars e ut = map (symbol e) (groups 8 (ut mod 2 ^ 40)).
Proof.
  unfold time_chars, EncodeToString.
  change (length (time_bytes ut)) with 5%nat.
  rewrite encode_bytes_step by (simpl; lia).
  change (drop 5 (time_bytes ut)) with (@nil byte).
  change (take 5 (time_bytes ut)) with (time_bytes ut).
  rewrite encode_bytes_nil, app_nil_r.
  unfold quantum_chars. change (quantum_len (length (time_bytes ut))) with 8%nat.
  rewrite quantum_value_time_bytes.
  rewrite take_ge by (rewrite length_groups; lia).
  destruct (padChar e); simpl replicate; now rewrite app_nil_r.
Qed.

(** ** Order of strings *)

Lemma increasing_head (l : list byte) :
  forall a k, increasing (a :: l) = true -> (k < length l)%nat ->
    int_of_byte a < int_of_byte (nth k l x00).
Proof.
  induction l as [|b l IH]; intros a k Hinc Hk; [simpl in Hk; lia|].
  simpl in Hinc. apply andb_true_iff in Hinc as [Hab Hinc].
  destruct k as [|k]; simpl; [lia|].
  specialize (IH b k Hinc ltac:(simpl in Hk; lia)). lia.
Qed.

Lemma increasing_nth (l : list byte) :
  increasing l = true ->
  forall i j, (i < j < length l)%nat ->
    int_of_byte (nth i l x00) < int_of_byte (nth j l x00).
Proof.
  induction l as [|a l IH]; intros Hinc i j Hij; [simpl in Hij; lia|].
  destruct j as [|j]; [lia|]. destruct i as [|i]; simpl.
  - apply increasing_head; [exact Hinc|simpl in Hij; lia].
  - apply IH; [|simpl in Hij; lia].
    destruct l; [reflexivity|]. simpl in Hinc.
    now apply andb_true_iff in Hinc as [_ Hinc].
Qed.

(** A value with more low bits set sorts later, group by group. *)
Lemma groups_lt (e : Encoding) :
  increasing (encode e) = true -> length (encode e) = 32%nat ->
  forall n v1 v2,
    v1 mod 2 ^ (5 * Z.of_nat n) < v2 mod 2 ^ (5 * Z.of_nat n) ->
    string_lt (map (symbol e) (groups n v1)) (map (symbol e) (groups n v2)) = true.
Proof.
  intros Hinc Hlen. induction n as [|n IH]; intros v1 v2 Hlt.
  - simpl in Hlt. rewrite !Z.mod_1_r in Hlt. lia.
  - cbn [groups map string_lt].
    set (P := 2 ^ (5 * Z.of_nat n)) in *.
    assert (HP : 0 < P) by (apply Z.pow_pos_nonneg; lia).
    assert (Hsplit : forall v, v mod 2 ^ (5 * Z.of_nat (S n))
                               = v mod P + P * ((v / P) mod 32)).
    { intros v. replace (5 * Z.of_nat (S n)) with (5 * Z.of_nat n + 5) by lia.
      rewrite Z.pow_add_r by lia. fold P. change (2 ^ 5) with 32.
      apply Z.rem_mul_r; lia. }
    rewrite !Hsplit in Hlt.
    change 31 with (Z.ones 5). rewrite !Z.land_ones by lia.
    rewrite !Z.shiftr_div_pow2 by lia. fold P. change (2 ^ 5) with 32.
    pose proof (Z.mod_pos_bound (v1 / P) 32 eq_refl) as Hd1.
    pose proof (Z.mod_pos_bound (v2 / P) 32 eq_refl) as Hd2.
    pose proof (Z.mod_pos_bound v1 P HP) as Hr1.
    pose proof (Z.mod_pos_bound v2 P HP) as Hr2.
    set (d1 := (v1 / P) mod 32) in *. set (d2 := (v2 / P) mod 32) in *.
    assert (Hd : d1 < d2 \/ (d1 = d2 /\ v1 mod P < v2 mod P)) by nia.
    apply orb_true_iff. destruct Hd as [Hd|[Hd Hr]].
    + left. apply Z.ltb_lt. unfold symbol.
      apply increasing_nth; [exact Hinc|lia].
    + right. rewrite Hd, Z.eqb_refl. apply IH. exact Hr.
Qed.

Lemma increasing_Lower : increasing (encode Lower) = true.
Proof. reflexivity. Qed.

Lemma increasing_Upper : increasing (encode Upper) = true.
Proof. reflexivity. Qed.

(** ** Normalising bytes *)

Lemma normUpper_idempotent (c : byte) : normUpper (normUpper c) = normUpper c.
Proof. destruct c; reflexivity. Qed.

Lemma norm_bytes_app (s1 s2 : list byte) :
  norm_bytes (s1 ++ s2) = norm_bytes s1 ++ norm_bytes s2.
Proof.
  induction s1 as [|c s1 IH]; simpl; [reflexivity|].
  destruct (negb (Byte.eqb (normUpper c) x00)); simpl; now rewrite IH.
Qed.

Lemma norm_bytes_idempotent (s : list byte) :
  norm_bytes (norm_bytes s) = norm_bytes s.
Proof.
  induction s as [|c s IH]; simpl; [reflexivity|].
  destruct (negb (Byte.eqb (normUpper c) x00)) eqn:E; [|exact IH].
  simpl. rewrite normUpper_idempotent, E. now rewrite IH.
Qed.

Lemma norm_bytes_no_hyphen (s : list byte) : ~ In "-"%byte (norm_bytes s).
Proof.
  induction s as [|c s IH]; simpl; [tauto|].
  destruct (negb (Byte.eqb (normUpper c) x00)); [|exact IH].
  intros [E|Hin]; [|now apply IH].
  revert E. destruct c; vm_compute; discriminate.
Qed.

(** ** Growing buffers *)

Section Buffers.

Variable slack : nat -> nat -> nat.

Lemma append_in_place (s : slice) (xs : list byte) (h : heap) :
  (len s + length xs <= cap s)%nat ->
  append slack s xs h
  = Ok ({| ptr := ptr s; off := off s; len := len s + length xs; cap := cap s |},
        heap_write h s (len s) xs).
Proof.
  intros Hfit. unfold append.
  now replace (len s + length xs <=? cap s)%nat with true by lia.
Qed.

Lemma append_realloc (s : slice) (xs : list byte) (h : heap) :
  (cap s < len s + length xs)%nat ->
  append slack s xs h
  = Ok ({| ptr := length h; off := 0; len := len s + length xs;
           cap := len s + length xs + slack (cap s) (len s + length xs) |},
        h ++ [contents h s ++ xs
              ++ replicate (slack (cap s) (len s + length xs)) x00]).
Proof.
  intros Hfit. unfold append.
  now replace (len s + length xs <=? cap s)%nat with false by lia.
Qed.

(** What [append] guarantees, whichever way it goes: the result holds
    the old bytes followed by the new ones; it stays in the array of [s]
    exactly when the spare capacity suffices, and otherwise lives in a
    fresh array; no other slice changes. *)
Lemma append_spec (s : slice) (xs : list byte) (h : heap) :
  wf_slice h s ->
  exists ret h',
    append slack s xs h = Ok (ret, h') /\
    len ret = (len s + length xs)%nat /\
    wf_slice h' ret /\
    contents h' ret = contents h s ++ xs /\
    (length h <= length h')%nat /\
    (forall t, wf_slice h t -> wf_slice h' t) /\
    (forall t, wf_slice h t ->
       ptr t <> ptr s \/ (off t + len t <= off s + len s)%nat ->
       contents h' t = contents h t) /\
    (((len s + length xs <= cap s)%nat /\
      ptr ret = ptr s /\ off ret = off s /\ cap ret = cap s)
     \/ ((cap s < len s + length xs)%nat /\ ptr ret = length h)).
Proof.
  intros Hs. pose proof Hs as [Hl Hc].
  pose proof (length_contents h s Hs) as Hlen.
  destruct (Nat.le_gt_cases (len s + length xs) (cap s)) as [Hfit|Hfit].
  - assert (Hb : in_bounds h s (len s) xs) by (unfold in_bounds; lia).
    eexists _, _. split; [now apply append_in_place|]. simpl.
    split; [reflexivity|]. split.
    { apply wf_heap_write; [exact Hb|]. split; simpl; lia. }
    split.
    { rewrite (contents_heap_write_suffix h s (len s) xs _ (len s));
        simpl; auto. }
    split; [now rewrite length_heap_write|].
    split; [intros t Ht; now apply wf_heap_write|].
    split.
    { intros t Ht [Hne|Hbefore].
      - now apply contents_heap_write_other.
      - now apply contents_heap_write_before. }
    left. auto.
  - eexists _, _. split; [now apply append_realloc|]. simpl.
    set (k := slack (cap s) (len s + length xs)).
    split; [reflexivity|]. split.
    { split; simpl; [lia|]. rewrite array_at_app_new.
      rewrite !length_app, length_replicate. lia. }
    split.
    { unfold contents at 1; simpl. rewrite array_at_app_new.
      rewrite app_assoc. apply take_app_length'.
      rewrite length_app. lia. }
    split; [rewrite length_app; simpl; lia|].
    split; [intros t Ht; now apply wf_app|].
    split; [intros t Ht _; now apply contents_app|].
    right. auto.
Qed.

(** The zeroed bytes [make([]byte, n)...] handed to [append]. *)
Lemma make_load (n : Z) (h : heap) :
  0 <= n ->
  (t <- make n n ;; load t) h
  = Ok (replicate (Z.to_nat n) x00, h ++ [replicate (Z.to_nat n) x00]).
Proof.
  intros Hn. unfold bind. rewrite make_ok by lia. unfold load.
  rewrite contents_new; [reflexivity|now rewrite length_replicate].
Qed.

(** [ensure] extends [b] by [size] bytes: [ret] begins with the bytes of
    [b], [tar] is the window of the [size] new bytes; with enough spare
    capacity nothing is allocated and [ret] is [b] made longer. *)
Lemma ensure_spec (size : Z) (b : slice) (h : heap) :
  0 <= size -> wf_slice h b ->
  exists ret h',
    ensure slack size b h
    = Ok ((ret, {| ptr := ptr ret; off := off ret + len b;
                   len := Z.to_nat size; cap := cap ret - len b |}), h') /\
    len ret = (len b + Z.to_nat size)%nat /\
    wf_slice h' ret /\
    take (len b) (drop (off ret) (array_at h' (ptr ret))) = contents h b /\
    (exists ext, h' = h ++ ext) /\
    (((len b + Z.to_nat size <= cap b)%nat /\ h' = h /\
      ptr ret = ptr b /\ off ret = off b /\ cap ret = cap b)
     \/ ((cap b < len b + Z.to_nat size)%nat /\ (length h <= ptr ret)%nat)).
Proof.
  intros Hsize Hb. pose proof Hb as [Hl Hc].
  unfold ensure, Cap, Len.
  destruct (Z.of_nat (cap b) >=? Z.of_nat (len b) + size) eqn:Efit.
  - unfold bind at 1. rewrite sub_ok by (unfold Cap; lia).
    change (Z.to_nat 0) with 0%nat.
    rewrite Nat.add_0_r, Nat.sub_0_r, Z.sub_0_r.
    unfold bind at 1. rewrite sub_ok by (unfold Cap; simpl; lia). simpl.
    rewrite Nat2Z.id.
    replace (Z.to_nat (Z.of_nat (len b) + size - Z.of_nat (len b)))
      with (Z.to_nat size) by lia.
    replace (Z.to_nat (Z.of_nat (len b) + size))
      with (len b + Z.to_nat size)%nat by lia.
    exists {| ptr := ptr b; off := off b;
              len := len b + Z.to_nat size; cap := cap b |}, h.
    split; [reflexivity|]. simpl.
    split; [reflexivity|].
    split; [split; simpl; lia|].
    split; [reflexivity|].
    split; [exists []; now rewrite app_nil_r|].
    left. repeat split; lia.
  - unfold bind at 1. unfold bind at 1. rewrite make_load by lia.
    set (zeros := replicate (Z.to_nat size) x00).
    set (h1 := h ++ [zeros]).
    assert (Hz : length zeros = Z.to_nat size) by apply length_replicate.
    assert (Hb1 : wf_slice h1 b) by now apply wf_app.
    destruct (append_spec b zeros h1 Hb1)
      as (ret & h' & Erun & Hlen & Hwf & Hcont & Hlenh & _ & _ & Hcase).
    rewrite Erun.
    destruct Hcase as [[Hfit _]|[Hfit Hptr]]; [lia|].
    unfold bind at 1. rewrite sub_ok by (unfold Cap; destruct Hwf; lia).
    rewrite Nat2Z.id.
    replace (Z.to_nat (Z.of_nat (len b) + size - Z.of_nat (len b)))
      with (Z.to_nat size) by lia.
    eexists _, _. split; [reflexivity|].
    split; [lia|]. split; [exact Hwf|].
    split.
    { change (take (len b) (drop (off ret) (array_at h' (ptr ret))))
        with (take (len b) (drop (off ret) (array_at h' (ptr ret)))).
      assert (E : take (len b) (contents h' ret) = contents h b).
      { rewrite Hcont. unfold h1. rewrite contents_app by exact Hb.
        apply take_app_length'. now rewrite length_contents. }
      rewrite <- E. unfold contents. rewrite take_take. f_equal. lia. }
    split.
    { unfold append in Erun.
      replace (len b + length zeros <=? cap b)%nat with false in Erun by lia.
      injection Erun as _ <-. unfold h1. rewrite <- app_assoc. eauto. }
    right. split; [lia|]. rewrite Hptr. unfold h1. rewrite length_app. lia.
Qed.

(** [grow] returns the bytes of [b] in a buffer with room for [n] more;
    [b] itself when its spare capacity is at least [n]. *)
Lemma grow_spec (b : slice) (n : Z) (h : heap) :
  0 <= n -> wf_slice h b ->
  exists ret h',
    grow slack b n h = Ok (ret, h') /\
    len ret = len b /\
    wf_slice h' ret /\
    (len ret + Z.to_nat n <= cap ret)%nat /\
    contents h' ret = contents h b /\
    (length h <= length h')%nat /\
    ((len b + Z.to_nat n <= cap b)%nat ->
     ptr ret = ptr b /\ off ret = off b /\ cap ret = cap b).
Proof.
  intros Hn Hb. pose proof Hb as [Hl Hc].
  unfold grow, Cap, Len.
  destruct (Z.of_nat (cap b) - Z.of_nat (len b) >? n) eqn:Espare.
  - exists b, h. unfold mret. repeat split; auto; lia.
  - unfold bind at 1. rewrite make_load by lia.
    set (zeros := replicate (Z.to_nat n) x00).
    set (h1 := h ++ [zeros]).
    assert (Hz : length zeros = Z.to_nat n) by apply length_replicate.
    assert (Hb1 : wf_slice h1 b) by now apply wf_app.
    destruct (append_spec b zeros h1 Hb1)
      as (b' & h' & Erun & Hlen & Hwf & Hcont & Hlenh & _ & _ & Hcase).
    unfold bind at 1. rewrite Erun.
    rewrite sub_ok by (unfold Cap; destruct Hwf; lia).
    change (Z.to_nat 0) with 0%nat.
    rewrite Nat.add_0_r, Nat.sub_0_r, Z.sub_0_r, Nat2Z.id.
    eexists _, _. split; [reflexivity|]. simpl.
    split; [reflexivity|].
    split; [destruct Hwf; split; simpl; lia|].
    split; [destruct Hwf; lia|].
    split.
    { assert (E : take (len b) (contents h' b') = contents h b).
      { rewrite Hcont. unfold h1. rewrite contents_app by exact Hb.
        apply take_app_length'. now rewrite length_contents. }
      rewrite <- E. unfold contents; simpl. rewrite take_take. f_equal. lia. }
    split; [unfold h1 in Hlenh; rewrite length_app in Hlenh; lia|].
    intros Hfit. destruct Hcase as [(_ & ? & ? & ?)|[? _]]; [auto|lia].
Qed.

(** C7. When the spare capacity of [b] is at least the [n] bytes to be
    appended, [ensure] and [grow] reuse the array of [b]: the result
    starts at the same place of the same array and has the capacity of
    [b]; [ensure] allocates nothing at all. *)
Theorem ensure_grow_reuse_spare_capacity (n : Z) (b : slice) (h : heap) :
  wf_slice h b -> 0 <= n -> n <= Cap b - Len b ->
  (exists ret tar,
      ensure slack n b h = Ok ((ret, tar), h) /\
      ptr ret = ptr b /\ off ret = off b /\ cap ret = cap b /\
      Len ret = Len b + n /\ contents h tar = drop (len b) (contents h ret)) /\
  (exists ret h',
      grow slack b n h = Ok (ret, h') /\
      ptr ret = ptr b /\ off ret = off b /\ cap ret = cap b /\
      len ret = len b /\ contents h' ret = contents h b).
Proof.
  intros Hb Hn Hspare. unfold Cap, Len in *. split.
  - destruct (ensure_spec n b h Hn Hb)
      as (ret & h' & Erun & Hlen & Hwf & Hpre & _ & Hcase).
    destruct Hcase as [(_ & -> & Hp & Ho & Hc)|[Hfit _]]; [|lia].
    eexists _, _. split; [exact Erun|].
    repeat split; auto; [lia|].
    unfold contents; simpl. rewrite Hlen.
    rewrite skipn_firstn_comm, drop_drop. f_equal. lia.
  - destruct (grow_spec b n h Hn Hb)
      as (ret & h' & Erun & Hlen & Hwf & Hroom & Hcont & _ & Hsame).
    destruct Hsame as (Hp & Ho & Hc); [lia|].
    exists ret, h'. repeat split; auto.
Qed.

(** ** The time encoder *)

Lemma store_new (h : heap) (arr : list byte) (n c : nat) (i : Z) (v : byte) :
  0 <= i < Z.of_nat n ->
  store {| ptr := length h; off := 0; len := n; cap := c |} i v (h ++ [arr])
  = Ok (tt, h ++ [overwrite (Z.to_nat i) [v] arr]).
Proof.
  intros Hi. unfold store.
  rewrite store_list_ok by (unfold Len; simpl; lia).
  now rewrite heap_write_new.
Qed.

Lemma EncodedLen_5 (e : Encoding) : EncodedLen e 5 = 8%nat.
Proof. unfold EncodedLen. now destruct (padChar e). Qed.

(** [AppendTime] never panics; it returns the bytes of [dst] followed by
    the 8 characters of the time, in the array of [dst] when that has
    room for them. *)
Lemma AppendTime_spec (e : Encoding) (t : Time_t) (dst : slice) (h : heap) :
  wf_slice h dst ->
  exists ret h',
    AppendTime slack e t dst h = Ok (ret, h') /\
    len ret = (len dst + 8)%nat /\
    wf_slice h' ret /\
    contents h' ret = contents h dst ++ time_chars e (Unix t) /\
    ((len dst + 8 <= cap dst)%nat ->
     ptr ret = ptr dst /\ off ret = off dst /\ cap ret = cap dst).
Proof.
  intros Hdst. unfold AppendTime.
  unfold bind at 1. unfold new_array.
  change (length (replicate 5 x00)) with 5%nat.
  do 5 (unfold bind at 1; rewrite store_new by lia).
  match goal with
  | |- context [h ++ [?a]] => change a with (time_bytes (Unix t))
  end.
  set (src := {| ptr := length h; off := 0; len := 5; cap := 5 |}).
  set (h0 := h ++ [time_bytes (Unix t)]).
  assert (Hdst0 : wf_slice h0 dst) by now apply wf_app.
  destruct (ensure_spec LenTime dst h0 ltac:(unfold LenTime; lia) Hdst0)
    as (ret & h1 & Erun & Hlen & Hwf & Hpre & [ext Hext] & Hcase).
  change (Z.to_nat LenTime) with 8%nat in *.
  unfold bind at 1. rewrite Erun.
  set (tar := {| ptr := ptr ret; off := off ret + len dst;
                 len := 8; cap := cap ret - len dst |}).
  assert (Hsrc : wf_slice h1 src).
  { rewrite Hext. apply wf_app. split; simpl; [lia|].
    unfold h0. rewrite array_at_app_new. reflexivity. }
  assert (Htar : wf_slice h1 tar).
  { destruct Hwf. split; simpl; lia. }
  assert (Hsrcc : contents h1 src = time_bytes (Unix t)).
  { rewrite Hext, contents_app.
    - unfold h0. now apply contents_new.
    - split; simpl; [lia|]. unfold h0. now rewrite array_at_app_new. }
  unfold bind at 1.
  rewrite Encode_spec; [|assumption|assumption|right; simpl; lia
                        |simpl; rewrite EncodedLen_5; lia].
  rewrite Hsrcc. fold (time_chars e (Unix t)).
  assert (Hchars : length (time_chars e (Unix t)) = 8%nat).
  { unfold time_chars. rewrite EncodeToString_length. apply EncodedLen_5. }
  assert (Hb : in_bounds h1 tar 0 (time_chars e (Unix t))).
  { unfold in_bounds. rewrite Hchars. destruct Hwf. simpl. lia. }
  exists ret, (heap_write h1 tar 0 (time_chars e (Unix t))).
  split; [reflexivity|]. split; [exact Hlen|].
  split; [now apply wf_heap_write|].
  split.
  - rewrite (contents_heap_write_suffix h1 tar 0 _ ret (len dst));
      [|assumption|reflexivity|simpl; lia|lia].
    rewrite Hpre. unfold h0. now rewrite contents_app.
  - intros Hfit. destruct Hcase as [(_ & _ & ? & ? & ?)|[? _]]; [auto|lia].
Qed.

Lemma Time_spec (e : Encoding) (t : Time_t) (h : heap) :
  exists h', Time slack e t h = Ok (time_chars e (Unix t), h').
Proof.
  destruct (AppendTime_spec e t nil_slice h (wf_nil_slice h))
    as (ret & h' & Erun & _ & _ & Hcont & _).
  exists h'. unfold Time, bind. rewrite Erun. unfold load. now rewrite Hcont.
Qed.

(** The second count 1700000000 in the uppercase alphabet. *)
Example Time_1700000000 (h : heap) :
  value (Time slack Upper {| Unix := 1700000000 |} h) = Ok (bytes "01JN7W80").
Proof.
  destruct (Time_spec Upper {| Unix := 1700000000 |} h) as [h' E].
  now rewrite E.
Qed.

(** Equal byte quintuples make [AppendTime] run alike. *)
Lemma AppendTime_ext (e : Encoding) (t1 t2 : Time_t) (dst : slice) :
  time_bytes (Unix t1) = time_bytes (Unix t2) ->
  AppendTime slack e t1 dst = AppendTime slack e t2 dst.
Proof.
  unfold time_bytes. intros E.
  injection E as E32 E24 E16 E8 E0.
  unfold AppendTime. now rewrite E32, E24, E16, E8, E0.
Qed.

(** C1. For timestamps [t1 < t2] whose second counts fit in 40 bits, the
    8-character string of [t1] is bytewise less than the string of [t2],
    in the lowercase and in the uppercase encoding. *)
Theorem Time_sortable (e : Encoding) (t1 t2 : Time_t) (h1 h2 : heap) :
  e = Lower \/ e = Upper ->
  0 <= Unix t1 < 2 ^ 40 -> 0 <= Unix t2 < 2 ^ 40 ->
  Unix t1 < Unix t2 ->
  exists s1 s2 : list byte,
    value (Time slack e t1 h1) = Ok s1 /\
    value (Time slack e t2 h2) = Ok s2 /\
    s1 = time_chars e (Unix t1) /\ s2 = time_chars e (Unix t2) /\
    length s1 = 8%nat /\ length s2 = 8%nat /\
    string_lt s1 s2 = true.
Proof.
  intros He Ht1 Ht2 Hlt.
  destruct (Time_spec e t1 h1) as [h1' E1].
  destruct (Time_spec e t2 h2) as [h2' E2].
  exists (time_chars e (Unix t1)), (time_chars e (Unix t2)).
  rewrite E1, E2. cbn [value].
  do 4 (split; [reflexivity|]).
  rewrite !time_chars_groups, !length_map, !length_groups.
  do 2 (split; [reflexivity|]).
  apply groups_lt.
  - destruct He as [->| ->]; [apply increasing_Lower|apply increasing_Upper].
  - destruct He as [->| ->]; reflexivity.
  - change (5 * Z.of_nat 8) with 40. rewrite !Z.mod_mod by lia.
    rewrite !Z.mod_small by lia. exact Hlt.
Qed.

(** C6. [AppendTime] keeps the low 40 bits of the second count and never
    fails: two times whose second counts agree modulo [2^40] give the
    same result, which is [dst] followed by the 8 characters of the
    count reduced modulo [2^40]. *)
Theorem AppendTime_truncates_to_40_bits
    (e : Encoding) (t1 t2 : Time_t) (dst : slice) (h : heap) :
  wf_slice h dst ->
  Unix t1 mod 2 ^ 40 = Unix t2 mod 2 ^ 40 ->
  exists ret h',
    AppendTime slack e t1 dst h = Ok (ret, h') /\
    AppendTime slack e t2 dst h = Ok (ret, h') /\
    len ret = (len dst + 8)%nat /\
    contents h' ret = contents h dst ++ time_chars e (Unix t1 mod 2 ^ 40) /\
    length (time_chars e (Unix t1 mod 2 ^ 40)) = 8%nat.
Proof.
  intros Hdst Hcong.
  assert (Hbytes : time_bytes (Unix t1) = time_bytes (Unix t2))
    by now rewrite <- (time_bytes_mod (Unix t1)), Hcong, time_bytes_mod.
  destruct (AppendTime_spec e t1 dst h Hdst)
    as (ret & h' & Erun & Hlen & _ & Hcont & _).
  exists ret, h'.
  split; [exact Erun|].
  split; [now rewrite <- (AppendTime_ext e t1 t2 dst Hbytes)|].
  split; [exact Hlen|].
  unfold time_chars in *. rewrite time_bytes_mod.
  split; [exact Hcont|].
  rewrite EncodeToString_length. apply EncodedLen_5.
Qed.

(** ** The normaliser *)

Lemma index_ok (s : slice) (i : nat) (h : heap) :
  (i < len s)%nat ->
  index s (Z.of_nat i) h = Ok (nth i (contents h s) x00, h).
Proof.
  intros Hi. unfold index.
  replace ((0 <=? Z.of_nat i) && (Z.of_nat i <? Z.of_nat (len s))) with true by lia.
  now rewrite Nat2Z.id.
Qed.

(** The loop of [AppendNormalized] keeps the bytes of [dst] and appends
    at most one byte per iteration. When [src] lies in another array
    than [dst], what it appends is [norm_bytes] of the bytes of [src]
    still to be read. *)
Lemma norm_loop_spec (src : slice) (n : nat) :
  forall (i : nat) (dst : slice) (h : heap),
    wf_slice h dst -> (i + n <= len src)%nat ->
    exists ret h' app,
      norm_loop slack n src (Z.of_nat i) dst h = Ok (ret, h') /\
      wf_slice h' ret /\
      contents h' ret = contents h dst ++ app /\
      (length app <= n)%nat /\
      (wf_slice h src -> (ptr src < length h)%nat -> ptr dst <> ptr src ->
       app = norm_bytes (take n (drop i (contents h src)))).
Proof.
  induction n as [|n IH]; intros i dst h Hdst Hi.
  - exists dst, h, []. simpl. unfold mret.
    rewrite app_nil_r. split; [reflexivity|]. split; [exact Hdst|].
    repeat split; auto.
  - cbn [norm_loop]. unfold bind at 1.
    rewrite index_ok by lia.
    set (c := nth i (contents h src) x00).
    set (r := normUpper c). cbv zeta.
    assert (Hstep : exists d h1,
               (if negb (Byte.eqb r x00) then append slack dst [r] else mret dst) h
               = Ok (d, h1) /\
               wf_slice h1 d /\
               contents h1 d
               = contents h dst ++ (if negb (Byte.eqb r x00) then [r] else []) /\
               (length h <= length h1)%nat /\
               (wf_slice h src -> ptr dst <> ptr src ->
                wf_slice h1 src /\ contents h1 src = contents h src) /\
               (ptr d = ptr dst \/ ptr d = length h)).
    { destruct (negb (Byte.eqb r x00)).
      - destruct (append_spec dst [r] h Hdst)
          as (d & h1 & Erun & _ & Hwf & Hcont & Hlenh & Hwfs & Hframe & Hcase).
        exists d, h1. split; [exact Erun|]. split; [exact Hwf|].
        split; [exact Hcont|]. split; [exact Hlenh|]. split.
        + intros Hsrc Hne. split; [now apply Hwfs|]. apply Hframe; auto.
        + destruct Hcase as [(_ & ? & _)|[_ ?]]; auto.
      - exists dst, h. unfold mret. rewrite app_nil_r.
        split; [reflexivity|]. split; [exact Hdst|].
        split; [reflexivity|]. split; [lia|]. split; [now split|now left]. }
    destruct Hstep as (d & h1 & Erun & Hwf & Hcont & Hlenh & Hframe & Hptr).
    unfold bind at 1. rewrite Erun.
    replace (Z.of_nat i + 1) with (Z.of_nat (S i)) by lia.
    destruct (IH (S i) d h1 Hwf ltac:(lia))
      as (ret & h' & app & Erun' & Hwf' & Hcont' & Happ & Hexact).
    exists ret, h', ((if negb (Byte.eqb r x00) then [r] else []) ++ app).
    split; [exact Erun'|]. split; [exact Hwf'|].
    split; [now rewrite Hcont', Hcont, app_assoc|].
    split; [rewrite length_app; destruct (negb (Byte.eqb r x00)); simpl; lia|].
    intros Hsrc Hp Hne.
    destruct (Hframe Hsrc Hne) as [Hsrc1 Hsame].
    rewrite Hexact; [|exact Hsrc1|lia|destruct Hptr as [-> | ->]; lia].
    rewrite Hsame.
    pose proof (length_contents h src Hsrc) as Hlen.
    destruct (nth_lookup_or_length (contents h src) i x00) as [E|E]; [|lia].
    rewrite (drop_S _ _ i E). fold c. cbn [take norm_bytes]. fold r.
    now destruct (negb (Byte.eqb r x00)).
Qed.

(** [AppendNormalized] keeps the bytes of [dst] and appends at most one
    byte per byte of [src]; the appended bytes are [norm_bytes] of the
    bytes of [src] when [src] does not share the array written to. *)
Lemma AppendNormalized_spec (dst src : slice) (h : heap) :
  wf_slice h dst ->
  exists ret h' app,
    AppendNormalized slack dst src h = Ok (ret, h') /\
    wf_slice h' ret /\
    contents h' ret = contents h dst ++ app /\
    (length app <= len src)%nat /\
    (wf_slice h src -> (ptr src < length h)%nat ->
     cap dst = 0%nat \/ ptr dst <> ptr src ->
     app = norm_bytes (contents h src)).
Proof.
  intros Hdst. unfold AppendNormalized, Cap.
  destruct (Z.of_nat (cap dst) =? 0) eqn:Ecap.
  - unfold bind at 1. rewrite make_ok by (unfold Len; lia).
    unfold Len. rewrite Nat2Z.id. change (Z.to_nat 0) with 0%nat.
    set (d0 := {| ptr := length h; off := 0; len := 0; cap := len src |}).
    set (h0 := h ++ [replicate (len src) x00]).
    assert (Hd0 : wf_slice h0 d0).
    { split; simpl; [lia|]. unfold h0.
      rewrite array_at_app_new, length_replicate. lia. }
    destruct (norm_loop_spec src (len src) 0 d0 h0 Hd0 ltac:(lia))
      as (ret & h' & app & Erun & Hwf & Hcont & Happ & Hexact).
    exists ret, h', app. split; [exact Erun|]. split; [exact Hwf|].
    split.
    { rewrite Hcont. f_equal. destruct Hdst as [Hl _].
      unfold contents. replace (len dst) with 0%nat by lia. reflexivity. }
    split; [exact Happ|].
    intros Hsrc Hp _.
    rewrite Hexact; [|now apply wf_app|unfold h0; rewrite length_app; lia
                     |simpl; lia].
    unfold h0. rewrite contents_app by exact Hsrc.
    rewrite drop_0, take_ge; [reflexivity|].
    rewrite length_contents by exact Hsrc. lia.
  - unfold bind at 1. unfold mret at 1.
    destruct (norm_loop_spec src (len src) 0 dst h Hdst ltac:(lia))
      as (ret & h' & app & Erun & Hwf & Hcont & Happ & Hexact).
    exists ret, h', app. split; [exact Erun|]. split; [exact Hwf|].
    split; [exact Hcont|]. split; [exact Happ|].
    intros Hsrc Hp [Hcap|Hne]; [lia|].
    rewrite Hexact by assumption.
    rewrite drop_0, take_ge; [reflexivity|].
    rewrite length_contents by exact Hsrc. lia.
Qed.

Lemma Normalized_spec (s : list byte) (h : heap) :
  exists h', Normalized slack s h = Ok (norm_bytes s, h').
Proof.
  unfold Normalized. unfold bind at 1. unfold new_array.
  set (src := {| ptr := length h; off := 0; len := length s; cap := length s |}).
  set (h0 := h ++ [s]).
  assert (Hsrc : wf_slice h0 src).
  { split; simpl; [lia|]. unfold h0. rewrite array_at_app_new. lia. }
  destruct (AppendNormalized_spec nil_slice src h0 (wf_nil_slice h0))
    as (ret & h' & app & Erun & _ & Hcont & _ & Hexact).
  exists h'. unfold bind. rewrite Erun. unfold load. rewrite Hcont.
  rewrite Hexact; [|exact Hsrc|unfold h0; rewrite length_app; simpl; lia
                   |now left].
  unfold h0, src. now rewrite contents_new.
Qed.

(** C3. [Normalized] replaces every ['o'] and ['O'] of its input by
    ['0'], every ['i'] and ['I'] by ['1'] and every lowercase letter of
    the alphabet by its uppercase form, and drops every ['-']: whatever
    stands before and after the byte, the output is the output for what
    stands before, then the replacement, then the output for what stands
    after.  The output for the empty string is empty, so that
    [Normalized("o")] is ["0"], and [Normalized("ab-1O")] is ["AB10"].
    [normUpper], which decides each byte, has the same table. *)
Theorem Normalized_substitutions :
  normUpper "o" = "0"%byte /\ normUpper "O" = "0"%byte /\
  normUpper "i" = "1"%byte /\ normUpper "I" = "1"%byte /\
  map normUpper (bytes "abcdefghjkmnpqrstvwxyzu") = bytes "ABCDEFGHJKMNPQRSTVWXYZU" /\
  map normUpper LowercaseChecksum = UppercaseChecksum /\
  normUpper "-" = x00 /\
  (forall (s : list byte) (h : heap),
      exists out, value (Normalized slack s h) = Ok out /\ ~ In "-"%byte out) /\
  (forall (s1 s2 : list byte) (h : heap),
      value (Normalized slack (s1 ++ "-"%byte :: s2) h)
      = value (Normalized slack (s1 ++ s2) h)) /\
  (forall h : heap, value (Normalized slack (bytes "ab-1O") h) = Ok (bytes "AB10")) /\
  (forall h : heap, value (Normalized slack [] h) = Ok []) /\
  (forall (s1 s2 : list byte) (h h1 h2 : heap),
      exists o1 o2,
        value (Normalized slack s1 h1) = Ok o1 /\
        value (Normalized slack s2 h2) = Ok o2 /\
        value (Normalized slack (s1 ++ "o"%byte :: s2) h) = Ok (o1 ++ "0"%byte :: o2) /\
        value (Normalized slack (s1 ++ "O"%byte :: s2) h) = Ok (o1 ++ "0"%byte :: o2) /\
        value (Normalized slack (s1 ++ "i"%byte :: s2) h) = Ok (o1 ++ "1"%byte :: o2) /\
        value (Normalized slack (s1 ++ "I"%byte :: s2) h) = Ok (o1 ++ "1"%byte :: o2) /\
        Forall2 (fun lower upper =>
                   value (Normalized slack (s1 ++ lower :: s2) h)
                   = Ok (o1 ++ upper :: o2))
                (bytes "abcdefghjkmnpqrstvwxyzu")
                (bytes "ABCDEFGHJKMNPQRSTVWXYZU") /\
        Forall2 (fun digit same =>
                   value (Normalized slack (s1 ++ digit :: s2) h)
                   = Ok (o1 ++ same :: o2))
                (bytes "0123456789") (bytes "0123456789") /\
        value (Normalized slack (s1 ++ "-"%byte :: s2) h) = Ok (o1 ++ o2)).
Proof.
  do 7 (split; [reflexivity|]).
  split; [|split; [|split; [|split]]].
  - intros s h. destruct (Normalized_spec s h) as [h' E].
    exists (norm_bytes s). rewrite E. split; [reflexivity|].
    apply norm_bytes_no_hyphen.
  - intros s1 s2 h.
    destruct (Normalized_spec (s1 ++ "-"%byte :: s2) h) as [h1 E1].
    destruct (Normalized_spec (s1 ++ s2) h) as [h2 E2].
    rewrite E1, E2. cbn [value]. now rewrite !norm_bytes_app.
  - intros h. destruct (Normalized_spec (bytes "ab-1O") h) as [h' E].
    now rewrite E.
  - intros h. destruct (Normalized_spec [] h) as [h' E]. now rewrite E.
  - intros s1 s2 h h1 h2.
    destruct (Normalized_spec s1 h1) as [h1' E1].
    destruct (Normalized_spec s2 h2) as [h2' E2].
    exists (norm_bytes s1), (norm_bytes s2).
    rewrite E1, E2.
    assert (Hat : forall c : byte,
               value (Normalized slack (s1 ++ c :: s2) h)
               = Ok (norm_bytes s1 ++ norm_bytes [c] ++ norm_bytes s2)).
    { intros c. destruct (Normalized_spec (s1 ++ c :: s2) h) as [h' E].
      rewrite E. cbn [value]. f_equal.
      change (c :: s2) with ([c] ++ s2). now rewrite !norm_bytes_app. }
    repeat split; try (rewrite Hat; reflexivity);
      repeat (constructor; [rewrite Hat; reflexivity|]); constructor.
Qed.

(** C4. Normalisation is idempotent: normalising the result of
    [Normalized(s)] returns it unchanged. *)
Theorem Normalized_idempotent (s : list byte) (h : heap) :
  exists out h1 h2,
    Normalized slack s h = Ok (out, h1) /\
    Normalized slack out h1 = Ok (out, h2).
Proof.
  destruct (Normalized_spec s h) as [h1 E1].
  destruct (Normalized_spec (norm_bytes s) h1) as [h2 E2].
  exists (norm_bytes s), h1, h2. split; [exact E1|].
  now rewrite E2, norm_bytes_idempotent.
Qed.

End Buffers.

Section RandomEncoder.

Variable slack : nat -> nat -> nat.
Variable rand_Read : nat -> read_outcome.

(** ** The random encoder *)

(** [AppendRandom] panics with the error of the random source when the
    read fails; otherwise it returns the bytes of [dst] followed by the
    8 characters that encode the 5 bytes [rnd] left by the read. *)
Lemma AppendRandom_spec (e : Encoding) (dst : slice) (h : heap) :
  wf_slice h dst ->
  match rand_Read 5 with
  | ReadErr err => AppendRandom slack rand_Read e dst h = Panic err
  | ReadOk bs =>
      exists ret h' rnd,
        AppendRandom slack rand_Read e dst h = Ok (ret, h') /\
        len ret = (len dst + 8)%nat /\
        wf_slice h' ret /\
        length rnd = 5%nat /\
        ((5 <= length bs)%nat -> rnd = take 5 bs) /\
        contents h' ret = contents h dst ++ EncodeToString e rnd /\
        ((len dst + 8 <= cap dst)%nat ->
         ptr ret = ptr dst /\ off ret = off dst /\ cap ret = cap dst)
  end.
Proof.
  intros Hdst.
  destruct (grow_spec slack dst LenRandom h ltac:(unfold LenRandom; lia) Hdst)
    as (d & h1 & Erun & Hlen & Hwf & Hroom & Hcont & _ & Hsame).
  change (Z.to_nat LenRandom) with 8%nat in *.
  pose proof Hwf as [Hdl Hdc].
  set (src := {| ptr := ptr d; off := off d + len d; len := 5;
                 cap := cap d - len d |}).
  assert (Estart :
            AppendRandom slack rand_Read e dst h
            = match rand_Read 5 with
              | ReadErr err => Panic err
              | ReadOk bs =>
                  (tar <- sub d (Len d) (Len d + LenRandom) ;;
                   Encode e tar src ;;;
                   sub d 0 (Len d + LenRandom))
                    (heap_write h1 src 0 (take 5 bs))
              end).
  { assert (Esrc : {| ptr := ptr d; off := off d + Z.to_nat (Len d);
                      len := Z.to_nat (Len d + 5 - Len d);
                      cap := cap d - Z.to_nat (Len d) |} = src)
      by (unfold src, Len; f_equal; lia).
    unfold AppendRandom. unfold bind at 1. rewrite Erun.
    unfold bind at 1. rewrite sub_ok by (unfold Cap, Len; lia).
    rewrite Esrc. change (len src) with 5%nat. unfold bind at 1.
    destruct (rand_Read 5) as [bs|err]; [|reflexivity].
    rewrite store_list_ok; [reflexivity|lia|].
    unfold Len; simpl. rewrite length_take. lia. }
  rewrite Estart. clear Estart.
  destruct (rand_Read 5) as [bs|err]; [|reflexivity].
  assert (Htake : (length (take 5 bs) <= 5)%nat) by (rewrite length_take; lia).
  set (h2 := heap_write h1 src 0 (take 5 bs)).
  assert (Hb2 : in_bounds h1 src 0 (take 5 bs))
    by (unfold in_bounds; simpl; lia).
  unfold Len, LenRandom.
  unfold bind at 1. rewrite sub_ok by (unfold Cap; lia).
  rewrite Nat2Z.id.
  replace (Z.to_nat (Z.of_nat (len d) + 8 - Z.of_nat (len d))) with 8%nat by lia.
  set (tar := {| ptr := ptr d; off := off d + len d; len := 8;
                 cap := cap d - len d |}).
  assert (Hsrc : wf_slice h2 src).
  { apply wf_heap_write; [exact Hb2|]. split; simpl; lia. }
  assert (Htar : wf_slice h2 tar).
  { apply wf_heap_write; [exact Hb2|]. split; simpl; lia. }
  unfold bind at 1.
  rewrite Encode_spec; [|assumption|assumption|right; simpl; lia
                        |simpl; rewrite EncodedLen_5; lia].
  set (rnd := contents h2 src).
  assert (Hrnd : length rnd = 5%nat) by (unfold rnd; now rewrite length_contents).
  assert (Hchars : length (EncodeToString e rnd) = 8%nat)
    by (rewrite EncodeToString_length, Hrnd; apply EncodedLen_5).
  assert (Hb3 : in_bounds h2 tar 0 (EncodeToString e rnd)).
  { unfold in_bounds. rewrite Hchars. destruct Htar. simpl in *. lia. }
  rewrite sub_ok by (unfold Cap; lia).
  change (Z.to_nat 0) with 0%nat.
  rewrite Nat.add_0_r, Nat.sub_0_r, Z.sub_0_r.
  replace (Z.to_nat (Z.of_nat (len d) + 8)) with (len d + 8)%nat by lia.
  set (ret := {| ptr := ptr d; off := off d; len := len d + 8; cap := cap d |}).
  exists ret, (heap_write h2 tar 0 (EncodeToString e rnd)), rnd.
  split; [reflexivity|]. split; [simpl; lia|].
  split; [apply wf_heap_write; [exact Hb3|];
          apply wf_heap_write; [exact Hb2|]; split; simpl; lia|].
  split; [exact Hrnd|].
  split.
  { intros Hbs. unfold rnd, h2.
    apply contents_heap_write_exact; auto.
    simpl. rewrite length_take. lia. }
  split.
  { rewrite (contents_heap_write_suffix h2 tar 0 _ ret (len d));
      [|assumption|reflexivity|simpl; lia|simpl; lia].
    f_equal. rewrite <- Hcont.
    change (take (len d) (drop (off ret) (array_at h2 (ptr ret))))
      with (contents h2 d).
    unfold h2. apply contents_heap_write_before; [exact Hb2|simpl; lia]. }
  intros Hfit. simpl. apply Hsame. lia.
Qed.

Lemma Random_spec (e : Encoding) (h : heap) :
  match rand_Read 5 with
  | ReadErr err => Random slack rand_Read e h = Panic err
  | ReadOk bs =>
      exists rnd h',
        Random slack rand_Read e h = Ok (EncodeToString e rnd, h') /\
        length rnd = 5%nat /\ ((5 <= length bs)%nat -> rnd = take 5 bs)
  end.
Proof.
  pose proof (AppendRandom_spec e nil_slice h (wf_nil_slice h))
    as Hspec.
  unfold Random, bind. destruct (rand_Read 5) as [bs|err].
  - destruct Hspec as (ret & h' & rnd & Erun & _ & _ & Hrnd & Hbs & Hcont & _).
    exists rnd, h'. rewrite Erun. unfold load. rewrite Hcont. auto.
  - now rewrite Hspec.
Qed.

(** C9. When the random source fails, [AppendRandom] and [Random] panic
    with its error and return nothing; when it succeeds they return
    normally. *)
Theorem AppendRandom_panics_on_entropy_failure
    (e : Encoding) (dst : slice) (h : heap) :
  wf_slice h dst ->
  match rand_Read 5 with
  | ReadErr err =>
      AppendRandom slack rand_Read e dst h = Panic err /\
      Random slack rand_Read e h = Panic err
  | ReadOk _ =>
      (exists ret h', AppendRandom slack rand_Read e dst h = Ok (ret, h')) /\
      (exists s h', Random slack rand_Read e h = Ok (s, h'))
  end.
Proof.
  intros Hdst.
  pose proof (AppendRandom_spec e dst h Hdst) as HA.
  pose proof (Random_spec e h) as HR.
  destruct (rand_Read 5) as [bs|err]; [|now split].
  split.
  - destruct HA as (ret & h' & _ & Erun & _). now exists ret, h'.
  - destruct HR as (rnd & h' & Erun & _).
    exists (EncodeToString e rnd), h'. exact Erun.
Qed.

End RandomEncoder.

Section HashEncoder.

Variable slack : nat -> nat -> nat.
Variable md5_Sum : list byte -> list byte.
Hypothesis md5_Size : forall m, length (md5_Sum m) = 16%nat.

(** ** The content-hash encoder *)

Lemma EncodedLen_16 (e : Encoding) : padChar e = None -> EncodedLen e 16 = 26%nat.
Proof. intros Hpad. unfold EncodedLen. now rewrite Hpad. Qed.

(** With an encoding that does not pad, [AppendMD5] returns the bytes of
    [dst] followed by the 26 characters of the digest of [src]. *)
Lemma AppendMD5_spec (e : Encoding) (dst src : slice) (h : heap) :
  padChar e = None -> wf_slice h dst -> wf_slice h src ->
  exists ret h',
    AppendMD5 slack md5_Sum e dst src h = Ok (ret, h') /\
    len ret = (len dst + 26)%nat /\
    wf_slice h' ret /\
    contents h' ret
    = contents h dst ++ EncodeToString e (md5_Sum (contents h src)) /\
    ((len dst + 26 <= cap dst)%nat ->
     ptr ret = ptr dst /\ off ret = off dst /\ cap ret = cap dst).
Proof.
  intros Hpad Hdst Hsrc. unfold AppendMD5.
  unfold bind at 1. unfold new_array.
  change (length (replicate 16 x00)) with 16%nat.
  unfold bind at 1. unfold load at 1.
  rewrite contents_app by exact Hsrc.
  set (digest := md5_Sum (contents h src)).
  assert (Hdig : length digest = 16%nat) by apply md5_Size.
  unfold bind at 1. unfold bind at 1.
  rewrite sub_ok by (unfold Cap; simpl; lia).
  rewrite append_in_place by (simpl; lia).
  simpl ptr; simpl off; simpl len; simpl cap.
  rewrite heap_write_new.
  replace (overwrite (0 + Z.to_nat 0 + Z.to_nat (0 - 0)) digest (replicate 16 x00))
    with digest.
  2:{ unfold overwrite. change (0 + Z.to_nat 0 + Z.to_nat (0 - 0))%nat with 0%nat.
      rewrite take_0, drop_ge by (simpl; lia). now rewrite app_nil_r. }
  set (buf := {| ptr := length h; off := 0; len := 16; cap := 16 |}).
  set (h0 := h ++ [digest]).
  assert (Hdst0 : wf_slice h0 dst) by now apply wf_app.
  destruct (ensure_spec slack LenMD5 dst h0 ltac:(unfold LenMD5; lia) Hdst0)
    as (ret & h1 & Erun & Hlen & Hwf & Hpre & [ext Hext] & Hcase).
  change (Z.to_nat LenMD5) with 26%nat in *.
  unfold bind at 1. rewrite Erun.
  set (tar := {| ptr := ptr ret; off := off ret + len dst;
                 len := 26; cap := cap ret - len dst |}).
  assert (Hbuf0 : wf_slice h0 buf).
  { split; simpl; [lia|]. unfold h0. rewrite array_at_app_new. lia. }
  assert (Hbuf : wf_slice h1 buf) by (rewrite Hext; now apply wf_app).
  assert (Htar : wf_slice h1 tar) by (destruct Hwf; split; simpl; lia).
  assert (Hbufc : contents h1 buf = digest).
  { rewrite Hext, contents_app by exact Hbuf0.
    unfold h0. now apply contents_new. }
  assert (Hne : ptr tar <> ptr buf).
  { simpl. destruct Hcase as [(Hfit & _ & Hp & _)|[_ Hp]].
    - rewrite Hp. pose proof (wf_ptr h dst Hdst ltac:(lia)). lia.
    - unfold h0 in Hp. rewrite length_app in Hp. simpl in Hp. lia. }
  unfold bind at 1.
  rewrite Encode_spec; [|assumption|assumption|left; exact Hne
                        |simpl; rewrite EncodedLen_16 by exact Hpad; lia].
  rewrite Hbufc.
  assert (Hchars : length (EncodeToString e digest) = 26%nat)
    by (rewrite EncodeToString_length, Hdig; now apply EncodedLen_16).
  assert (Hb : in_bounds h1 tar 0 (EncodeToString e digest)).
  { unfold in_bounds. rewrite Hchars. destruct Hwf. simpl. lia. }
  exists ret, (heap_write h1 tar 0 (EncodeToString e digest)).
  split; [reflexivity|]. split; [exact Hlen|].
  split; [now apply wf_heap_write|].
  split.
  - rewrite (contents_heap_write_suffix h1 tar 0 _ ret (len dst));
      [|assumption|reflexivity|simpl; lia|lia].
    rewrite Hpre. unfold h0. now rewrite contents_app.
  - intros Hfit. destruct Hcase as [(_ & _ & ? & ? & ?)|[? _]]; [auto|lia].
Qed.

Lemma MD5_spec (e : Encoding) (src : slice) (h : heap) :
  padChar e = None -> wf_slice h src ->
  exists h',
    MD5 slack md5_Sum e src h
    = Ok (EncodeToString e (md5_Sum (contents h src)), h').
Proof.
  intros Hpad Hsrc.
  destruct (AppendMD5_spec e nil_slice src h
              Hpad (wf_nil_slice h) Hsrc)
    as (ret & h' & Erun & _ & _ & Hcont & _).
  exists h'. unfold MD5, bind. rewrite Erun. unfold load. now rewrite Hcont.
Qed.

End HashEncoder.


(** * The package as a whole *)

Section Package.

Variable slack : nat -> nat -> nat.
Variable rand_Read : nat -> read_outcome.
Variable md5_Sum : list byte -> list byte.
Hypothesis md5_Size : forall m, length (md5_Sum m) = 16%nat.

(** C5. The time encoder and the random encoder append exactly 8
    characters and the content-hash encoder exactly 26, whatever the
    timestamp, the content and the destination buffer. *)
Theorem encoders_append_fixed_lengths
    (e : Encoding) (t : Time_t) (dst src : slice) (h : heap) :
  padChar e = None -> wf_slice h dst -> wf_slice h src ->
  (exists ret h',
      AppendTime slack e t dst h = Ok (ret, h') /\
      Len ret = Len dst + LenTime /\
      length (contents h' ret) = (length (contents h dst) + 8)%nat) /\
  (exists s h', Time slack e t h = Ok (s, h') /\ length s = 8%nat) /\
  match rand_Read 5 with
  | ReadErr err =>
      AppendRandom slack rand_Read e dst h = Panic err /\
      Random slack rand_Read e h = Panic err
  | ReadOk _ =>
      (exists ret h',
          AppendRandom slack rand_Read e dst h = Ok (ret, h') /\
          Len ret = Len dst + LenRandom /\
          length (contents h' ret) = (length (contents h dst) + 8)%nat) /\
      (exists s h', Random slack rand_Read e h = Ok (s, h') /\ length s = 8%nat)
  end /\
  (exists ret h',
      AppendMD5 slack md5_Sum e dst src h = Ok (ret, h') /\
      Len ret = Len dst + LenMD5 /\
      length (contents h' ret) = (length (contents h dst) + 26)%nat) /\
  (exists s h', MD5 slack md5_Sum e src h = Ok (s, h') /\ length s = 26%nat).
Proof.
  intros Hpad Hdst Hsrc. unfold Len, LenTime, LenRandom, LenMD5.
  split; [|split; [|split; [|split]]].
  - destruct (AppendTime_spec slack e t dst h Hdst)
      as (ret & h' & Erun & Hlen & Hwf & _).
    exists ret, h'. split; [exact Erun|]. split; [lia|].
    rewrite !length_contents by assumption. exact Hlen.
  - destruct (Time_spec slack e t h) as [h' E].
    exists (time_chars e (Unix t)), h'. split; [exact E|].
    unfold time_chars. rewrite EncodeToString_length. apply EncodedLen_5.
  - pose proof (AppendRandom_spec slack rand_Read e dst h Hdst) as HA.
    pose proof (Random_spec slack rand_Read e h) as HR.
    destruct (rand_Read 5) as [bs|err]; [|now split].
    split.
    + destruct HA as (ret & h' & rnd & Erun & Hlen & Hwf & _).
      exists ret, h'. split; [exact Erun|]. split; [lia|].
      rewrite !length_contents by assumption. exact Hlen.
    + destruct HR as (rnd & h' & Erun & Hrnd & _).
      exists (EncodeToString e rnd), h'. split; [exact Erun|].
      rewrite EncodeToString_length, Hrnd. apply EncodedLen_5.
  - destruct (AppendMD5_spec slack md5_Sum md5_Size e dst src h Hpad Hdst Hsrc)
      as (ret & h' & Erun & Hlen & Hwf & _).
    exists ret, h'. split; [exact Erun|]. split; [lia|].
    rewrite !length_contents by assumption. exact Hlen.
  - destruct (MD5_spec slack md5_Sum md5_Size e src h Hpad Hsrc) as [h' E].
    eexists _, h'. split; [exact E|].
    rewrite EncodeToString_length, md5_Size. now apply EncodedLen_16.
Qed.

(** C8. Every append-style operation returns a sequence that begins
    with the bytes of [dst], unchanged, followed by the bytes it
    appends, with or without a reallocation. *)
Theorem append_operations_keep_dst
    (e : Encoding) (t : Time_t) (dst src : slice) (h : heap) :
  padChar e = None -> wf_slice h dst -> wf_slice h src ->
  (exists ret h',
      AppendTime slack e t dst h = Ok (ret, h') /\
      contents h' ret = contents h dst ++ time_chars e (Unix t)) /\
  (forall bs, rand_Read 5 = ReadOk bs ->
    exists ret h' rnd,
      AppendRandom slack rand_Read e dst h = Ok (ret, h') /\
      length rnd = 5%nat /\
      contents h' ret = contents h dst ++ EncodeToString e rnd) /\
  (exists ret h',
      AppendMD5 slack md5_Sum e dst src h = Ok (ret, h') /\
      contents h' ret
      = contents h dst ++ EncodeToString e (md5_Sum (contents h src))) /\
  (exists ret h' app,
      AppendNormalized slack dst src h = Ok (ret, h') /\
      contents h' ret = contents h dst ++ app /\
      (length app <= len src)%nat /\
      ((ptr src < length h)%nat -> cap dst = 0%nat \/ ptr dst <> ptr src ->
       app = norm_bytes (contents h src))).
Proof.
  intros Hpad Hdst Hsrc. split; [|split; [|split]].
  - destruct (AppendTime_spec slack e t dst h Hdst)
      as (ret & h' & Erun & _ & _ & Hcont & _).
    now exists ret, h'.
  - intros bs Hbs.
    pose proof (AppendRandom_spec slack rand_Read e dst h Hdst) as HA.
    rewrite Hbs in HA.
    destruct HA as (ret & h' & rnd & Erun & _ & _ & Hrnd & _ & Hcont & _).
    now exists ret, h', rnd.
  - destruct (AppendMD5_spec slack md5_Sum md5_Size e dst src h Hpad Hdst Hsrc)
      as (ret & h' & Erun & _ & _ & Hcont & _).
    now exists ret, h'.
  - destruct (AppendNormalized_spec slack dst src h Hdst)
      as (ret & h' & app & Erun & _ & Hcont & Happ & Hexact).
    exists ret, h', app. repeat split; auto.
Qed.

End Package.

(** * The theorems at sample inputs *)

Lemma Time_sortable_witness :
  (Upper = Lower \/ Upper = Upper) /\
  exists s1 s2 : list byte,
    value (Time doubling_slack Upper {| Unix := 1700000000 |} []) = Ok s1 /\
    value (Time doubling_slack Upper {| Unix := 1700000001 |} sample_heap) = Ok s2 /\
    s1 = time_chars Upper 1700000000 /\ s2 = time_chars Upper 1700000001 /\
    length s1 = 8%nat /\ length s2 = 8%nat /\
    string_lt s1 s2 = true.
Proof.
  split; [right; reflexivity|].
  apply (Time_sortable doubling_slack Upper
           {| Unix := 1700000000 |} {| Unix := 1700000001 |} [] sample_heap);
    [right; reflexivity|simpl; lia|simpl; lia|simpl; lia].
Defined.

Lemma AppendTime_truncates_to_40_bits_witness :
  wf_slice sample_heap sample_dst /\
  5 mod 2 ^ 40 = (5 + 2 ^ 40) mod 2 ^ 40 /\
  exists ret h',
    AppendTime doubling_slack Lower {| Unix := 5 |} sample_dst sample_heap
    = Ok (ret, h') /\
    AppendTime doubling_slack Lower {| Unix := 5 + 2 ^ 40 |} sample_dst sample_heap
    = Ok (ret, h') /\
    len ret = (len sample_dst + 8)%nat /\
    contents h' ret
    = contents sample_heap sample_dst ++ time_chars Lower (5 mod 2 ^ 40) /\
    length (time_chars Lower (5 mod 2 ^ 40)) = 8%nat.
Proof.
  assert (Hwf : wf_slice sample_heap sample_dst) by (split; simpl; lia).
  split; [exact Hwf|]. split; [reflexivity|].
  apply (AppendTime_truncates_to_40_bits doubling_slack Lower
           {| Unix := 5 |} {| Unix := 5 + 2 ^ 40 |} sample_dst sample_heap Hwf).
  reflexivity.
Defined.

Lemma ensure_grow_reuse_spare_capacity_witness :
  wf_slice sample_heap sample_dst /\ 0 <= 13 /\ 13 <= Cap sample_dst - Len sample_dst /\
  (exists ret tar,
      ensure doubling_slack 13 sample_dst sample_heap = Ok ((ret, tar), sample_heap) /\
      ptr ret = ptr sample_dst /\ off ret = off sample_dst /\
      cap ret = cap sample_dst /\
      Len ret = Len sample_dst + 13 /\
      contents sample_heap tar = drop (len sample_dst) (contents sample_heap ret)) /\
  (exists ret h',
      grow doubling_slack sample_dst 13 sample_heap = Ok (ret, h') /\
      ptr ret = ptr sample_dst /\ off ret = off sample_dst /\
      cap ret = cap sample_dst /\
      len ret = len sample_dst /\
      contents h' ret = contents sample_heap sample_dst).
Proof.
  assert (Hwf : wf_slice sample_heap sample_dst) by (split; simpl; lia).
  assert (Hspare : 13 <= Cap sample_dst - Len sample_dst)
    by (unfold Cap, Len; simpl; lia).
  split; [exact Hwf|]. split; [lia|]. split; [exact Hspare|].
  apply (ensure_grow_reuse_spare_capacity doubling_slack 13 sample_dst sample_heap
           Hwf ltac:(lia) Hspare).
Defined.

Lemma AppendRandom_panics_on_entropy_failure_witness :
  wf_slice sample_heap sample_dst /\
  AppendRandom doubling_slack failing_source Upper sample_dst sample_heap
  = Panic "entropy source failure" /\
  Random doubling_slack failing_source Upper sample_heap
  = Panic "entropy source failure".
Proof.
  assert (Hwf : wf_slice sample_heap sample_dst) by (split; simpl; lia).
  split; [exact Hwf|].
  apply (AppendRandom_panics_on_entropy_failure doubling_slack failing_source
           Upper sample_dst sample_heap Hwf).
Defined.

Lemma encoders_append_fixed_lengths_witness :
  padChar Upper = None /\
  wf_slice sample_heap sample_dst /\ wf_slice sample_heap sample_src /\
  (forall m, length (constant_digest m) = 16%nat) /\
  (exists ret h',
      AppendTime doubling_slack Upper {| Unix := 1700000000 |} sample_dst sample_heap
      = Ok (ret, h') /\
      Len ret = Len sample_dst + LenTime /\
      length (contents h' ret) = (length (contents sample_heap sample_dst) + 8)%nat) /\
  (exists s h',
      Time doubling_slack Upper {| Unix := 1700000000 |} sample_heap = Ok (s, h') /\
      length s = 8%nat) /\
  ((exists ret h',
       AppendRandom doubling_slack steady_source Upper sample_dst sample_heap
       = Ok (ret, h') /\
       Len ret = Len sample_dst + LenRandom /\
       length (contents h' ret) = (length (contents sample_heap sample_dst) + 8)%nat) /\
   (exists s h',
       Random doubling_slack steady_source Upper sample_heap = Ok (s, h') /\
       length s = 8%nat)) /\
  (exists ret h',
      AppendMD5 doubling_slack constant_digest Upper sample_dst sample_src sample_heap
      = Ok (ret, h') /\
      Len ret = Len sample_dst + LenMD5 /\
      length (contents h' ret) = (length (contents sample_heap sample_dst) + 26)%nat) /\
  (exists s h',
      MD5 doubling_slack constant_digest Upper sample_src sample_heap = Ok (s, h') /\
      length s = 26%nat).
Proof.
  assert (Hdst : wf_slice sample_heap sample_dst) by (split; simpl; lia).
  assert (Hsrc : wf_slice sample_heap sample_src) by (split; simpl; lia).
  assert (Hsize : forall m, length (constant_digest m) = 16%nat)
    by (intros m; reflexivity).
  split; [reflexivity|]. split; [exact Hdst|]. split; [exact Hsrc|].
  split; [exact Hsize|].
  apply (encoders_append_fixed_lengths doubling_slack steady_source
           constant_digest Hsize Upper {| Unix := 1700000000 |}
           sample_dst sample_src sample_heap eq_refl Hdst Hsrc).
Defined.

Lemma append_operations_keep_dst_witness :
  padChar Lower = None /\
  wf_slice sample_heap sample_dst /\ wf_slice sample_heap sample_src /\
  (forall m, length (constant_digest m) = 16%nat) /\
  (exists ret h',
      AppendTime doubling_slack Lower {| Unix := 1700000000 |} sample_dst sample_heap
      = Ok (ret, h') /\
      contents h' ret
      = contents sample_heap sample_dst ++ time_chars Lower 1700000000) /\
  (forall bs, steady_source 5 = ReadOk bs ->
    exists ret h' rnd,
      AppendRandom doubling_slack steady_source Lower sample_dst sample_heap
      = Ok (ret, h') /\
      length rnd = 5%nat /\
      contents h' ret = contents sample_heap sample_dst ++ EncodeToString Lower rnd) /\
  (exists ret h',
      AppendMD5 doubling_slack constant_digest Lower sample_dst sample_src sample_heap
      = Ok (ret, h') /\
      contents h' ret
      = contents sample_heap sample_dst
        ++ EncodeToString Lower (constant_digest (contents sample_heap sample_src))) /\
  (exists ret h' app,
      AppendNormalized doubling_slack sample_dst sample_src sample_heap = Ok (ret, h') /\
      contents h' ret = contents sample_heap sample_dst ++ app /\
      (length app <= len sample_src)%nat /\
      ((ptr sample_src < length sample_heap)%nat ->
       cap sample_dst = 0%nat \/ ptr sample_dst <> ptr sample_src ->
       app = norm_bytes (contents sample_heap sample_src))).
Proof.
  assert (Hdst : wf_slice sample_heap sample_dst) by (split; simpl; lia).
  assert (Hsrc : wf_slice sample_heap sample_src) by (split; simpl; lia).
  assert (Hsize : forall m, length (constant_digest m) = 16%nat)
    by (intros m; reflexivity).
  split; [reflexivity|]. split; [exact Hdst|]. split; [exact Hsrc|].
  split; [exact Hsize|].
  apply (append_operations_keep_dst doubling_slack steady_source
           constant_digest Hsize Lower {| Unix := 1700000000 |}
           sample_dst sample_src sample_heap eq_refl Hdst Hsrc).
Defined.

(** * Further properties of the package *)

(** ** The check symbol *)

Lemma be_value_from_split (b : list byte) :
  forall acc, be_value_from acc b = acc * 256 ^ Z.of_nat (length b) + be_value b.
Proof.
  unfold be_value.
  induction b as [|c b IH]; intros acc; simpl fold_left.
  - simpl. unfold be_value_from. simpl. lia.
  - unfold be_value_from in *. simpl fold_left.
    rewrite (IH (acc * 256 + int_of_byte c)), (IH (0 * 256 + int_of_byte c)).
    replace (Z.of_nat (length (c :: b))) with (Z.of_nat (length b) + 1)
      by (simpl length; lia).
    rewrite Z.pow_add_r by lia. lia.
Qed.

Lemma be_value_app (a b : list byte) :
  be_value (a ++ b) = be_value a * 256 ^ Z.of_nat (length b) + be_value b.
Proof.
  unfold be_value at 1. unfold be_value_from. rewrite fold_left_app.
  apply (be_value_from_split b).
Qed.

Lemma be_value_cons (c : byte) (b : list byte) :
  be_value (c :: b) = int_of_byte c * 256 ^ Z.of_nat (length b) + be_value b.
Proof.
  change (c :: b) with ([c] ++ b). rewrite be_value_app.
  unfold be_value at 1, be_value_from. simpl. lia.
Qed.

(** The general loop of [mod]: as long as [rem*256 + 255] fits the
    64-bit [int], it computes the remainder of the big-endian value. *)
Lemma mod_loop_general (m : Z) (b : list byte) :
  0 < m <= 2 ^ 55 ->
  forall rem, 0 <= rem < m ->
    mod_loop b m rem = Ok (be_value_from rem b mod m).
Proof.
  intros Hm. induction b as [|c b IH]; intros rem Hrem.
  - simpl. unfold be_value_from. simpl. now rewrite Z.mod_small.
  - pose proof (int_of_byte_range c) as Hc.
    assert (H55 : 2 ^ 55 * 256 = 2 ^ 63) by reflexivity.
    assert (H63 : 0 < 2 ^ 63) by reflexivity.
    cbn [mod_loop].
    rewrite Z.mul_1_r, (wrap64_small rem) by nia.
    rewrite Z.shiftl_mul_pow2 by lia. change (2 ^ 8) with 256.
    rewrite (wrap64_small (rem * 256)) by nia.
    rewrite (wrap64_small (rem * 256 + int_of_byte c)) by nia.
    unfold int_rem. replace (m =? 0) with false by lia.
    rewrite Z.rem_mod_nonneg by nia.
    pose proof (Z.mod_pos_bound (rem * 256 + int_of_byte c) m ltac:(lia)) as Hb.
    rewrite wrap64_small by nia. cbn [rbind].
    rewrite IH by lia.
    f_equal. unfold be_value_from at 2. cbn [fold_left].
    apply be_value_from_mod. now rewrite Z.mod_mod by lia.
Qed.

(** X1. [mod] computes the big-endian modulus for every modulus
    [0 < m <= 2^55]; on the empty sequence the result is 0. *)
Theorem mod_is_big_endian_modulus (b : list byte) (m : Z) :
  0 < m <= 2 ^ 55 ->
  mod_ b m = Ok (be_value b mod m) /\ mod_ [] m = Ok 0.
Proof.
  intros Hm. split; [|reflexivity].
  apply mod_loop_general; lia.
Qed.

Lemma distinct_head (l : list byte) (a : byte) (k : nat) :
  existsb (Byte.eqb a) l = false -> (k < length l)%nat -> nth k l x00 <> a.
Proof.
  revert k. induction l as [|b l IH]; intros k Hex Hk; [simpl in Hk; lia|].
  simpl in Hex. apply orb_false_iff in Hex as [Hab Hex].
  destruct k as [|k]; simpl.
  - intros E. apply Byte.eqb_false in Hab. congruence.
  - apply IH; [exact Hex|simpl in Hk; lia].
Qed.

Lemma distinct_nth_inj (l : list byte) :
  distinct l = true ->
  forall i j, (i < length l)%nat -> (j < length l)%nat ->
    nth i l x00 = nth j l x00 -> i = j.
Proof.
  induction l as [|a l IH]; intros Hd i j Hi Hj E; [simpl in Hi; lia|].
  simpl in Hd. apply andb_true_iff in Hd as [Ha Hd].
  apply negb_true_iff in Ha.
  destruct i as [|i], j as [|j]; simpl in *.
  - reflexivity.
  - exfalso. apply (distinct_head l a j Ha ltac:(lia)). now symmetry.
  - exfalso. apply (distinct_head l a i Ha ltac:(lia)). exact E.
  - f_equal. apply IH; auto; lia.
Qed.

Lemma Checksum_value (body : list byte) (uppercase : bool) :
  Checksum body uppercase
  = Ok (nth (Z.to_nat (be_value body mod 37)) (checksum_alphabet uppercase) x00).
Proof.
  pose proof (Z.mod_pos_bound (be_value body) 37 eq_refl) as Hm.
  unfold Checksum. rewrite mod_37_spec. cbn [rbind].
  fold (checksum_alphabet uppercase). unfold string_index.
  replace (length (checksum_alphabet uppercase)) with 37%nat
    by now destruct uppercase.
  now rewrite (proj2 (Z.leb_le _ _)), (proj2 (Z.ltb_lt _ _)) by lia.
Qed.

Lemma Checksum_eq_mod_37 (a b : list byte) (uppercase : bool) :
  Checksum a uppercase = Checksum b uppercase
  <-> be_value a mod 37 = be_value b mod 37.
Proof.
  rewrite !Checksum_value.
  pose proof (Z.mod_pos_bound (be_value a) 37 eq_refl) as Ha.
  pose proof (Z.mod_pos_bound (be_value b) 37 eq_refl) as Hb.
  assert (Hlen : length (checksum_alphabet uppercase) = 37%nat)
    by now destruct uppercase.
  split.
  - intros E. injection E as E.
    apply (distinct_nth_inj (checksum_alphabet uppercase)) in E;
      [lia|now destruct uppercase|lia|lia].
  - now intros ->.
Qed.

(** X2. Two bodies get the same check symbol exactly when their
    big-endian values are congruent modulo 37: the 37 symbols of a
    checksum alphabet are pairwise different. *)
Theorem Checksum_eq_iff_congruent (a b : list byte) (uppercase : bool) :
  Checksum a uppercase = Checksum b uppercase
  <-> be_value a mod 37 = be_value b mod 37.
Proof. apply Checksum_eq_mod_37. Qed.

Lemma cancel_256_pow (d : Z) (k : nat) :
  (d * 256 ^ Z.of_nat k) mod 37 = 0 -> d mod 37 = 0.
Proof.
  induction k as [|k IH]; intros H.
  - simpl in H. now rewrite Z.mul_1_r in H.
  - apply IH.
    replace (Z.of_nat (S k)) with (Z.of_nat k + 1) in H by lia.
    rewrite Z.pow_add_r, Z.pow_1_r in H by lia.
    set (e := d * 256 ^ Z.of_nat k) in *.
    replace (d * (256 ^ Z.of_nat k * 256)) with (e * 256) in H by (unfold e; ring).
    lia.
Qed.

Lemma congruent_iff_diff (x y : Z) :
  x mod 37 = y mod 37 <-> (x - y) mod 37 = 0.
Proof. lia. Qed.

(** X3. Replacing one byte [x] of a body by [y] changes the check symbol
    exactly when [x] and [y] differ modulo 37: a substitution by a byte
    whose value is 37, 74, ... away goes unnoticed. *)
Theorem Checksum_detects_substitution
    (pre post : list byte) (x y : byte) (uppercase : bool) :
  Checksum (pre ++ x :: post) uppercase = Checksum (pre ++ y :: post) uppercase
  <-> int_of_byte x mod 37 = int_of_byte y mod 37.
Proof.
  rewrite Checksum_eq_mod_37, !be_value_app, !be_value_cons.
  rewrite congruent_iff_diff, (congruent_iff_diff (int_of_byte x)).
  set (P := 256 ^ Z.of_nat (length post)).
  replace (be_value pre * 256 ^ Z.of_nat (length (x :: post))
           + (int_of_byte x * P + be_value post)
           - (be_value pre * 256 ^ Z.of_nat (length (y :: post))
              + (int_of_byte y * P + be_value post)))
    with ((int_of_byte x - int_of_byte y) * P) by (simpl length; ring).
  split.
  - apply cancel_256_pow.
  - intros H. rewrite Z.mul_mod, H by lia. reflexivity.
Qed.

(** X4. Swapping two neighbouring bytes [x] and [y] of a body changes
    the check symbol exactly when they differ modulo 37. *)
Theorem Checksum_detects_transposition
    (pre post : list byte) (x y : byte) (uppercase : bool) :
  Checksum (pre ++ x :: y :: post) uppercase
  = Checksum (pre ++ y :: x :: post) uppercase
  <-> int_of_byte x mod 37 = int_of_byte y mod 37.
Proof.
  rewrite Checksum_eq_mod_37, !be_value_app, !be_value_cons.
  rewrite congruent_iff_diff, (congruent_iff_diff (int_of_byte x)).
  set (P := 256 ^ Z.of_nat (length post)).
  assert (HP : 256 ^ Z.of_nat (length (x :: post)) = P * 256
               /\ 256 ^ Z.of_nat (length (y :: post)) = P * 256).
  { split; simpl length; rewrite Nat2Z.inj_succ, Z.pow_succ_r by lia;
      unfold P; ring. }
  destruct HP as [-> ->].
  replace (be_value pre * 256 ^ Z.of_nat (length (x :: y :: post))
           + (int_of_byte x * (P * 256) + (int_of_byte y * P + be_value post))
           - (be_value pre * 256 ^ Z.of_nat (length (y :: x :: post))
              + (int_of_byte y * (P * 256) + (int_of_byte x * P + be_value post))))
    with ((int_of_byte x - int_of_byte y) * 255 * P) by (simpl length; ring).
  split.
  - intros H. apply cancel_256_pow in H. lia.
  - intros H. rewrite Z.mul_mod, (Z.mul_mod (_ - _)), H by lia. reflexivity.
Qed.

(** X5. Zero bytes in front of a body never change its check symbol. *)
Theorem Checksum_ignores_leading_zeros
    (k : nat) (body : list byte) (uppercase : bool) :
  Checksum (replicate k x00 ++ body) uppercase = Checksum body uppercase.
Proof.
  apply Checksum_eq_mod_37. f_equal.
  induction k as [|k IH]; [reflexivity|].
  cbn [replicate app]. rewrite be_value_cons.
  change (int_of_byte x00) with 0. lia.
Qed.

(** X6. The uppercase check symbol is the normalised lowercase one, and
    normalising leaves it as it is: a check symbol survives [normUpper]
    and is never dropped by it. *)
Theorem Checksum_normUpper (body : list byte) :
  exists lo up : byte,
    Checksum body false = Ok lo /\ Checksum body true = Ok up /\
    normUpper lo = up /\ normUpper up = up /\ up <> x00.
Proof.
  pose proof (Z.mod_pos_bound (be_value body) 37 eq_refl) as Hm.
  eexists _, _. rewrite !Checksum_value.
  split; [reflexivity|]. split; [reflexivity|].
  set (i := Z.to_nat (be_value body mod 37)).
  assert (Hi : (i < 37)%nat) by (unfold i; lia).
  clearbody i. clear Hm.
  do 37 (destruct i as [|i]; [repeat split; discriminate|]).
  lia.
Qed.

(** ** Canonical symbols *)

Lemma normUpper_canonical (c : byte) :
  normUpper c <> x00 -> canonical (normUpper c) = true.
Proof. destruct c; intros H; try reflexivity; now contradiction H. Qed.

Lemma canonical_normUpper (c : byte) :
  canonical c = true -> normUpper c = c /\ c <> x00.
Proof.
  destruct c; intros H; try discriminate H;
    (split; [reflexivity|discriminate]).
Qed.

Lemma byte_eqb_x00 (r : byte) : negb (Byte.eqb r x00) = true <-> r <> x00.
Proof.
  destruct (Byte.eqb r x00) eqn:E; simpl.
  - apply Byte.byte_dec_bl in E. split; [discriminate|congruence].
  - apply Byte.eqb_false in E. tauto.
Qed.

Lemma norm_bytes_canonical (s : list byte) :
  forallb canonical (norm_bytes s) = true.
Proof.
  induction s as [|c s IH]; simpl; [reflexivity|].
  destruct (negb (Byte.eqb (normUpper c) x00)) eqn:E; [|exact IH].
  simpl. rewrite IH, normUpper_canonical; [reflexivity|].
  now apply byte_eqb_x00.
Qed.

Lemma norm_bytes_length (s : list byte) :
  (length (norm_bytes s) <= length s)%nat.
Proof.
  induction s as [|c s IH]; simpl; [lia|].
  destruct (negb (Byte.eqb (normUpper c) x00)); simpl; lia.
Qed.

Lemma norm_bytes_fixed (s : list byte) :
  forallb canonical s = true -> norm_bytes s = s.
Proof.
  induction s as [|c s IH]; simpl; [reflexivity|].
  intros H. apply andb_true_iff in H as [Hc Hs].
  destruct (canonical_normUpper c Hc) as [E Hne].
  rewrite E. apply byte_eqb_x00 in Hne. rewrite Hne. now rewrite IH.
Qed.

(** ** Both alphabets through the transform *)

Lemma groups_range (n : nat) (v : Z) :
  Forall (fun g => 0 <= g < 32) (groups n v).
Proof.
  induction n as [|n IH]; simpl; constructor; [|exact IH].
  change 31 with (Z.ones 5). rewrite Z.land_ones by lia.
  apply Z.mod_pos_bound. reflexivity.
Qed.

Lemma symbol_Lower_normUpper (g : Z) :
  0 <= g < 32 ->
  normUpper (symbol Lower g) = symbol Upper g /\ symbol Upper g <> x00.
Proof.
  intros Hg. unfold symbol.
  assert (Hi : (Z.to_nat g < 32)%nat) by lia.
  destruct (Z.to_nat g) as [|i]; [split; [reflexivity|discriminate]|].
  do 31 (destruct i as [|i]; [split; [reflexivity|discriminate]|]).
  lia.
Qed.

Lemma norm_bytes_symbols (gs : list Z) :
  Forall (fun g => 0 <= g < 32) gs ->
  norm_bytes (map (symbol Lower) gs) = map (symbol Upper) gs.
Proof.
  induction 1 as [|g gs Hg _ IH]; simpl; [reflexivity|].
  destruct (symbol_Lower_normUpper g Hg) as [E Hne].
  rewrite E. apply byte_eqb_x00 in Hne. rewrite Hne. now rewrite IH.
Qed.

Lemma norm_bytes_quantum_chars (q : list byte) :
  norm_bytes (quantum_chars Lower q) = quantum_chars Upper q.
Proof.
  unfold quantum_chars. simpl padChar. rewrite !app_nil_r.
  apply norm_bytes_symbols.
  apply Forall_take, groups_range.
Qed.

Lemma norm_bytes_encode_bytes (fuel : nat) :
  forall bs, norm_bytes (encode_bytes fuel Lower bs) = encode_bytes fuel Upper bs.
Proof.
  induction fuel as [|fuel IH]; intros bs; [reflexivity|].
  destruct bs as [|b bs]; [reflexivity|].
  cbn [encode_bytes].
  now rewrite norm_bytes_app, norm_bytes_quantum_chars, IH.
Qed.

Lemma encode_bytes_in_alphabet (e : Encoding) (fuel : nat) :
  length (encode e) = 32%nat -> padChar e = None ->
  forall bs, Forall (fun c => In c (encode e)) (encode_bytes fuel e bs).
Proof.
  intros Hlen Hpad. induction fuel as [|fuel IH]; intros bs; [constructor|].
  destruct bs as [|b bs]; [constructor|].
  cbn [encode_bytes]. apply Forall_app. split; [|apply IH].
  unfold quantum_chars. rewrite Hpad, app_nil_r.
  apply Forall_map.
  eapply Forall_impl; [apply Forall_take, groups_range|].
  intros g Hg. cbv beta in *. unfold symbol. apply nth_In. rewrite Hlen. lia.
Qed.

Lemma string_lt_irrefl (s : list byte) : string_lt s s = false.
Proof.
  induction s as [|c s IH]; [reflexivity|]. simpl.
  rewrite IH, Z.ltb_irrefl. now rewrite andb_false_r.
Qed.

Section MoreBuffers.

Variable slack : nat -> nat -> nat.

(** ** The normaliser, continued *)

(** X7. The result of [Normalized] holds only symbols of the uppercase
    checksum alphabet and is never longer than the input. *)
Theorem Normalized_output_canonical (s : list byte) (h : heap) :
  exists out,
    value (Normalized slack s h) = Ok out /\
    forallb canonical out = true /\
    (length out <= length s)%nat.
Proof.
  destruct (Normalized_spec slack s h) as [h' E].
  exists (norm_bytes s). rewrite E. split; [reflexivity|].
  split; [apply norm_bytes_canonical|apply norm_bytes_length].
Qed.

(** X8. Normalising a concatenation gives the concatenation of the
    normalised parts. *)
Theorem Normalized_app (s1 s2 : list byte) (h h1 h2 : heap) :
  exists o1 o2,
    value (Normalized slack s1 h1) = Ok o1 /\
    value (Normalized slack s2 h2) = Ok o2 /\
    value (Normalized slack (s1 ++ s2) h) = Ok (o1 ++ o2).
Proof.
  destruct (Normalized_spec slack s1 h1) as [h1' E1].
  destruct (Normalized_spec slack s2 h2) as [h2' E2].
  destruct (Normalized_spec slack (s1 ++ s2) h) as [h' E].
  exists (norm_bytes s1), (norm_bytes s2).
  rewrite E1, E2, E. cbn [value]. now rewrite norm_bytes_app.
Qed.

(** X9. [Normalized] returns its input unchanged exactly when every byte
    of the input is a symbol of the uppercase checksum alphabet. *)
Theorem Normalized_fixed_iff_canonical (s : list byte) (h : heap) :
  value (Normalized slack s h) = Ok s <-> forallb canonical s = true.
Proof.
  destruct (Normalized_spec slack s h) as [h' E]. rewrite E. cbn [value].
  split.
  - intros Hs. injection Hs as Hs. rewrite <- Hs. apply norm_bytes_canonical.
  - intros Hs. now rewrite norm_bytes_fixed.
Qed.

(** X10. Normalising what the lowercase encoding produces gives what the
    uppercase encoding produces for the same bytes; in particular the
    lowercase time string normalises to the uppercase one, which
    normalising leaves as it is. *)
Theorem Normalized_lowercase_encoding (t : Time_t) (bs : list byte) (h1 h2 h3 : heap) :
  value (Normalized slack (EncodeToString Lower bs) h3)
  = Ok (EncodeToString Upper bs) /\
  exists lo up,
    value (Time slack Lower t h1) = Ok lo /\
    value (Time slack Upper t h2) = Ok up /\
    value (Normalized slack lo h3) = Ok up /\
    value (Normalized slack up h3) = Ok up.
Proof.
  assert (Hgen : forall bs' h, value (Normalized slack (EncodeToString Lower bs') h)
                               = Ok (EncodeToString Upper bs')).
  { intros bs' h. destruct (Normalized_spec slack (EncodeToString Lower bs') h) as [h' E].
    rewrite E. cbn [value]. unfold EncodeToString.
    now rewrite norm_bytes_encode_bytes. }
  split; [apply Hgen|].
  destruct (Time_spec slack Lower t h1) as [h1' E1].
  destruct (Time_spec slack Upper t h2) as [h2' E2].
  exists (time_chars Lower (Unix t)), (time_chars Upper (Unix t)).
  rewrite E1, E2. cbn [value].
  split; [reflexivity|]. split; [reflexivity|].
  split; [apply Hgen|].
  destruct (Normalized_spec slack (time_chars Upper (Unix t)) h3) as [h3' E3].
  rewrite E3. cbn [value]. f_equal.
  unfold time_chars, EncodeToString.
  rewrite <- norm_bytes_encode_bytes. apply norm_bytes_idempotent.
Qed.

(** X11. In the lowercase and in the uppercase encoding two times have
    the same string exactly when their second counts agree modulo
    [2^40]. *)
Theorem Time_eq_iff_congruent (e : Encoding) (t1 t2 : Time_t) (h1 h2 : heap) :
  e = Lower \/ e = Upper ->
  value (Time slack e t1 h1) = value (Time slack e t2 h2)
  <-> Unix t1 mod 2 ^ 40 = Unix t2 mod 2 ^ 40.
Proof.
  intros He.
  destruct (Time_spec slack e t1 h1) as [h1' E1].
  destruct (Time_spec slack e t2 h2) as [h2' E2].
  rewrite E1, E2. cbn [value].
  assert (Hinc : increasing (encode e) = true)
    by (destruct He as [->| ->]; reflexivity).
  assert (Hlen : length (encode e) = 32%nat)
    by (destruct He as [->| ->]; reflexivity).
  split.
  - intros E0.
    assert (E : time_chars e (Unix t1) = time_chars e (Unix t2)) by congruence.
    clear E0. rewrite !time_chars_groups in E.
    destruct (Z.lt_trichotomy (Unix t1 mod 2 ^ 40) (Unix t2 mod 2 ^ 40))
      as [Hlt|[Heq|Hgt]]; [|exact Heq|].
    + pose proof (groups_lt e Hinc Hlen 8 (Unix t1 mod 2 ^ 40) (Unix t2 mod 2 ^ 40)) as H.
      change (5 * Z.of_nat 8) with 40 in H. rewrite !Z.mod_mod in H by lia.
      specialize (H Hlt). rewrite E, string_lt_irrefl in H. discriminate.
    + pose proof (groups_lt e Hinc Hlen 8 (Unix t2 mod 2 ^ 40) (Unix t1 mod 2 ^ 40)) as H.
      change (5 * Z.of_nat 8) with 40 in H. rewrite !Z.mod_mod in H by lia.
      specialize (H ltac:(lia)). rewrite E, string_lt_irrefl in H. discriminate.
  - intros E. f_equal. unfold time_chars.
    now rewrite <- (time_bytes_mod (Unix t1)), E, time_bytes_mod.
Qed.

(** ** The growth helpers, continued *)


(** X13. A negative size makes [ensure] panic, whatever the buffer; a
    negative count makes [grow] return the buffer as it is. *)
Theorem ensure_grow_negative (n : Z) (b : slice) (h : heap) :
  wf_slice h b -> n < 0 ->
  (exists msg, ensure slack n b h = Panic msg) /\
  grow slack b n h = Ok (b, h).
Proof.
  intros [Hl Hc] Hn. split.
  - unfold ensure, Cap, Len.
    replace (Z.of_nat (cap b) >=? Z.of_nat (len b) + n) with true by lia.
    destruct (Z.le_gt_cases 0 (Z.of_nat (len b) + n)) as [Hnew|Hnew].
    + unfold bind at 1. rewrite sub_ok by (unfold Cap; lia).
      unfold bind at 1. unfold sub at 1. cbn [cap].
      replace ((0 <=? Z.of_nat (len b))
               && (Z.of_nat (len b) <=? Z.of_nat (len b) + n)
               && (Z.of_nat (len b) + n <=? Z.of_nat (cap b - Z.to_nat 0)))
        with false by lia.
      eexists. reflexivity.
    + unfold bind at 1. unfold sub at 1.
      replace ((0 <=? 0) && (0 <=? Z.of_nat (len b) + n)
               && (Z.of_nat (len b) + n <=? Z.of_nat (cap b)))
        with false by lia.
      eexists. reflexivity.
  - unfold grow, Cap, Len.
    now replace (Z.of_nat (cap b) - Z.of_nat (len b) >? n) with true by lia.
Qed.

(** X14. For a buffer the runtime can hold and [n >= 0], when the
    capacity [append] would choose for a new array is one the runtime
    allocates (at most [alloc_bound], so that no length wraps and neither
    [make] nor [append] refuses), [grow] returns a buffer with the length
    and the bytes of [b] and with at least [n] spare cells, whose
    capacity is again at most [alloc_bound]. *)
Theorem grow_makes_room (b : slice) (n : Z) (h : heap) :
  wf_slice h b -> 0 <= n ->
  Cap b <= alloc_bound ->
  Len b + n + Z.of_nat (slack (cap b) (len b + Z.to_nat n)) <= alloc_bound ->
  exists ret h',
    grow slack b n h = Ok (ret, h') /\
    wf_slice h' ret /\
    Len ret = Len b /\
    contents h' ret = contents h b /\
    n <= Cap ret - Len ret /\
    Cap ret <= alloc_bound.
Proof.
  intros Hb Hn Hheld Hbound.
  destruct (grow_spec slack b n h Hn Hb)
    as (ret & h' & Erun & Hlen & Hwf & Hroom & Hcont & _).
  assert (Hcap : cap ret = cap b \/
                 cap ret = (len b + Z.to_nat n
                            + slack (cap b) (len b + Z.to_nat n))%nat).
  { revert Erun. unfold grow, Cap, Len.
    destruct (Z.of_nat (cap b) - Z.of_nat (len b) >? n).
    - unfold mret. intros E. injection E as <- _. now left.
    - unfold bind at 1. rewrite make_load by lia.
      unfold bind at 1. unfold append. rewrite length_replicate.
      destruct (len b + Z.to_nat n <=? cap b)%nat eqn:Efit.
      + rewrite sub_ok by (unfold Cap; simpl; lia).
        intros E. injection E as <- _. left. simpl. lia.
      + rewrite sub_ok by (unfold Cap; simpl; lia).
        intros E. injection E as <- _. right. simpl. lia. }
  exists ret, h'. unfold Cap, Len in *.
  repeat split; auto; try lia; apply Hwf.
Qed.

(** ** Normalising in place *)

(** The loop of [AppendNormalized] when [dst] has room for one byte per
    iteration left: it never leaves the array of [dst] and allocates
    nothing. When [dst] starts where [src] starts and is no longer than
    the part of [src] already read, every byte is read before its cell
    is written, and the loop appends [norm_bytes] of the rest of [src]. *)
Lemma norm_loop_in_place (src : slice) (n : nat) :
  forall (i : nat) (dst : slice) (h : heap),
    wf_slice h dst -> (i + n <= len src)%nat -> (len dst + n <= cap dst)%nat ->
    exists ret h' app,
      norm_loop slack n src (Z.of_nat i) dst h = Ok (ret, h') /\
      wf_slice h' ret /\
      ptr ret = ptr dst /\ off ret = off dst /\ cap ret = cap dst /\
      length h' = length h /\
      contents h' ret = contents h dst ++ app /\
      (forall t, wf_slice h t ->
         ptr t <> ptr dst \/ (off t + len t <= off dst + len dst)%nat ->
         contents h' t = contents h t) /\
      (wf_slice h src -> ptr dst = ptr src -> off dst = off src ->
       (len dst <= i)%nat ->
       app = norm_bytes (take n (drop i (contents h src)))).
Proof.
  induction n as [|n IH]; intros i dst h Hdst Hi Hroom.
  - exists dst, h, []. simpl. unfold mret. rewrite app_nil_r.
    split; [reflexivity|]. split; [exact Hdst|]. repeat split; auto.
  - pose proof Hdst as [Hdl Hdc].
    cbn [norm_loop]. unfold bind at 1. rewrite (index_ok slack) by lia.
    set (c := nth i (contents h src) x00).
    set (r := normUpper c). cbv zeta.
    replace (Z.of_nat i + 1) with (Z.of_nat (S i)) by lia.
    destruct (negb (Byte.eqb r x00)) eqn:Er.
    + unfold bind at 1. rewrite append_in_place by (simpl; lia).
      simpl length.
      set (d1 := {| ptr := ptr dst; off := off dst; len := len dst + 1;
                    cap := cap dst |}).
      set (h1 := heap_write h dst (len dst) [r]).
      assert (Hb : in_bounds h dst (len dst) [r])
        by (unfold in_bounds; simpl; lia).
      assert (Hd1 : wf_slice h1 d1).
      { apply wf_heap_write; [exact Hb|]. split; simpl; lia. }
      destruct (IH (S i) d1 h1 Hd1 ltac:(lia) ltac:(simpl; lia))
        as (ret & h' & app & Erun & Hwf & Hp & Ho & Hc & Hlenh & Hcont & Hframe
            & Hexact).
      exists ret, h', (r :: app).
      split; [exact Erun|]. split; [exact Hwf|].
      split; [exact Hp|]. split; [exact Ho|]. split; [exact Hc|].
      split; [rewrite Hlenh; apply length_heap_write|].
      split.
      { rewrite Hcont. unfold h1.
        rewrite (contents_heap_write_suffix h dst (len dst) [r] d1 (len dst));
          [|exact Hb|reflexivity|reflexivity|reflexivity].
        now rewrite <- app_assoc. }
      split.
      { intros t Ht Hcond.
        rewrite Hframe; [|now apply wf_heap_write|simpl; lia].
        destruct Hcond as [Hne|Hbefore].
        - now apply contents_heap_write_other.
        - now apply contents_heap_write_before. }
      intros Hsrc Hps Hos Hle.
      pose proof (length_contents h src Hsrc) as Hlen.
      assert (Hsrc1 : wf_slice h1 src) by now apply wf_heap_write.
      rewrite (Hexact Hsrc1 Hps Hos ltac:(simpl; lia)).
      assert (Hrest : drop (S i) (contents h1 src) = drop (S i) (contents h src)).
      { unfold contents, h1. rewrite <- Hps.
        rewrite array_at_heap_write_eq by exact Hb.
        rewrite !skipn_firstn_comm, !drop_drop. f_equal.
        apply window_overwrite_after; simpl; [lia|].
        unfold in_bounds in Hb. simpl in Hb. lia. }
      rewrite Hrest.
      destruct (nth_lookup_or_length (contents h src) i x00) as [E|E]; [|lia].
      rewrite (drop_S _ _ i E). fold c. cbn [take norm_bytes]. fold r.
      now rewrite Er.
    + unfold bind at 1. unfold mret at 1.
      destruct (IH (S i) dst h Hdst ltac:(lia) ltac:(lia))
        as (ret & h' & app & Erun & Hwf & Hp & Ho & Hc & Hlenh & Hcont & Hframe
            & Hexact).
      exists ret, h', app.
      split; [exact Erun|]. split; [exact Hwf|].
      split; [exact Hp|]. split; [exact Ho|]. split; [exact Hc|].
      split; [exact Hlenh|]. split; [exact Hcont|]. split; [exact Hframe|].
      intros Hsrc Hps Hos Hle.
      pose proof (length_contents h src Hsrc) as Hlen.
      rewrite (Hexact Hsrc Hps Hos ltac:(lia)).
      destruct (nth_lookup_or_length (contents h src) i x00) as [E|E]; [|lia].
      rewrite (drop_S _ _ i E). fold c. cbn [take norm_bytes]. fold r.
      now rewrite Er.
Qed.

(** X15. [AppendNormalized(buf[:0], buf)] normalises a buffer onto
    itself: the result starts where [buf] starts, holds the normalised
    bytes of [buf], and nothing is allocated. *)
Theorem AppendNormalized_onto_itself (buf : slice) (h : heap) :
  wf_slice h buf -> (0 < cap buf)%nat ->
  exists ret h',
    (dst <- sub buf 0 0 ;; AppendNormalized slack dst buf) h = Ok (ret, h') /\
    contents h' ret = norm_bytes (contents h buf) /\
    ptr ret = ptr buf /\ off ret = off buf /\ cap ret = cap buf /\
    length h' = length h.
Proof.
  intros Hbuf Hcap. pose proof Hbuf as [Hl Hc].
  unfold bind at 1. rewrite sub_ok by (unfold Cap; lia).
  change (Z.to_nat 0) with 0%nat. change (Z.to_nat (0 - 0)) with 0%nat.
  rewrite Nat.add_0_r, Nat.sub_0_r.
  set (dst := {| ptr := ptr buf; off := off buf; len := 0; cap := cap buf |}).
  assert (Hdst : wf_slice h dst) by (split; simpl; lia).
  unfold AppendNormalized, Cap.
  replace (Z.of_nat (cap dst) =? 0) with false by (simpl; lia).
  unfold bind at 1. unfold mret at 1.
  destruct (norm_loop_in_place buf (len buf) 0 dst h Hdst ltac:(lia)
              ltac:(simpl; lia))
    as (ret & h' & app & Erun & Hwf & Hp & Ho & Hcp & Hlenh & Hcont & _ & Hexact).
  exists ret, h'. split; [exact Erun|].
  split.
  - rewrite Hcont, (Hexact Hbuf eq_refl eq_refl ltac:(simpl; lia)).
    rewrite drop_0, take_ge by (rewrite length_contents by exact Hbuf; lia).
    reflexivity.
  - auto.
Qed.

(** X16. When [dst] has capacity and room for one byte per byte of
    [src], [AppendNormalized] stays in the array of [dst] and allocates
    nothing, whether or not [src] shares that array. *)
Theorem AppendNormalized_reuses_capacity (dst src : slice) (h : heap) :
  wf_slice h dst -> (0 < cap dst)%nat -> (len dst + len src <= cap dst)%nat ->
  exists ret h' app,
    AppendNormalized slack dst src h = Ok (ret, h') /\
    ptr ret = ptr dst /\ off ret = off dst /\ cap ret = cap dst /\
    length h' = length h /\
    contents h' ret = contents h dst ++ app /\
    (forall t, wf_slice h t ->
       ptr t <> ptr dst \/ (off t + len t <= off dst + len dst)%nat ->
       contents h' t = contents h t).
Proof.
  intros Hdst Hcap Hroom.
  unfold AppendNormalized, Cap.
  replace (Z.of_nat (cap dst) =? 0) with false by lia.
  unfold bind at 1. unfold mret at 1.
  destruct (norm_loop_in_place src (len src) 0 dst h Hdst ltac:(lia) Hroom)
    as (ret & h' & app & Erun & Hwf & Hp & Ho & Hcp & Hlenh & Hcont & Hframe & _).
  exists ret, h', app. auto 10.
Qed.

(** X17. For a [dst] without capacity [AppendNormalized] allocates one
    array of [len(src)] cells and returns a slice of it: the loop never
    reallocates. *)
Theorem AppendNormalized_allocates_once (dst src : slice) (h : heap) :
  wf_slice h dst -> cap dst = 0%nat ->
  exists ret h',
    AppendNormalized slack dst src h = Ok (ret, h') /\
    ptr ret = length h /\ off ret = 0%nat /\ cap ret = len src /\
    length h' = S (length h) /\
    (forall t, wf_slice h t -> contents h' t = contents h t).
Proof.
  intros Hdst Hcap.
  unfold AppendNormalized, Cap.
  replace (Z.of_nat (cap dst) =? 0) with true by lia.
  unfold bind at 1. rewrite make_ok by (unfold Len; lia).
  unfold Len. rewrite Nat2Z.id. change (Z.to_nat 0) with 0%nat.
  set (d0 := {| ptr := length h; off := 0; len := 0; cap := len src |}).
  set (h0 := h ++ [replicate (len src) x00]).
  assert (Hd0 : wf_slice h0 d0).
  { split; simpl; [lia|]. unfold h0.
    rewrite array_at_app_new, length_replicate. lia. }
  destruct (norm_loop_in_place src (len src) 0 d0 h0 Hd0 ltac:(lia)
              ltac:(simpl; lia))
    as (ret & h' & app & Erun & Hwf & Hp & Ho & Hcp & Hlenh & Hcont & Hframe & _).
  exists ret, h'. split; [exact Erun|].
  split; [exact Hp|]. split; [exact Ho|]. split; [exact Hcp|].
  split; [rewrite Hlenh; unfold h0; rewrite length_app; simpl; lia|].
  intros t Ht. rewrite Hframe; [now apply contents_app|now apply wf_app|].
  simpl. destruct (Nat.eq_dec (ptr t) (length h)) as [E|E]; [right|left; exact E].
  destruct Ht as [Htl Htc]. rewrite E, array_at_ge in Htc by lia.
  simpl in Htc. lia.
Qed.

(** ** What the append operations leave alone *)

Lemma wf_unallocated (h : heap) (t : slice) :
  wf_slice h t -> (length h <= ptr t)%nat -> len t = 0%nat.
Proof.
  intros [Hl Hc] Hp. rewrite array_at_ge in Hc by exact Hp. simpl in Hc. lia.
Qed.

Lemma contents_empty (h : heap) (t : slice) : len t = 0%nat -> contents h t = [].
Proof. intros E. unfold contents. now rewrite E. Qed.

(** The common tail of [AppendTime] and [AppendMD5]: [ensure], then
    [Encode] into the window it returns. *)
Lemma ensure_Encode_run (e : Encoding) (size : Z) (dst src : slice) (h0 : heap) :
  0 <= size -> wf_slice h0 dst -> wf_slice h0 src ->
  (len src <= 5)%nat
  \/ (0 < size /\ (ptr src < length h0)%nat
      /\ ((0 < cap dst)%nat -> ptr dst <> ptr src)) ->
  (EncodedLen e (len src) <= Z.to_nat size)%nat ->
  exists ret h',
    (rt <- ensure slack size dst ;;
     let '(ret, tar) := rt in
     Encode e tar src ;;;
     mret ret) h0 = Ok (ret, h') /\
    keeps_other_bytes h0 h' dst.
Proof.
  intros Hsize Hdst Hsrc Halias Hfit.
  destruct (ensure_spec slack size dst h0 Hsize Hdst)
    as (ret & h1 & Erun & Hlen & Hwf & Hpre & [ext Hext] & Hcase).
  unfold bind at 1. rewrite Erun.
  set (tar := {| ptr := ptr ret; off := off ret + len dst;
                 len := Z.to_nat size; cap := cap ret - len dst |}).
  assert (Hsrc1 : wf_slice h1 src) by (rewrite Hext; now apply wf_app).
  assert (Htar : wf_slice h1 tar) by (destruct Hwf; split; simpl; lia).
  unfold bind at 1.
  rewrite Encode_spec; [|assumption|assumption| |simpl; lia].
  2:{ destruct Halias as [H5|(Hpos & Hp & Hne)]; [now right|left]. simpl.
      destruct Hcase as [(Hroom & _ & -> & _)|[_ Hfresh]]; [apply Hne|]; lia. }
  set (chars := EncodeToString e (contents h1 src)).
  assert (Hchars : (length chars <= Z.to_nat size)%nat).
  { unfold chars. rewrite EncodeToString_length, length_contents by assumption.
    exact Hfit. }
  assert (Hb : in_bounds h1 tar 0 chars).
  { unfold in_bounds. destruct Hwf. simpl. lia. }
  exists ret, (heap_write h1 tar 0 chars). split; [reflexivity|].
  intros t Ht Hcond.
  assert (Ht1 : contents h1 t = contents h0 t)
    by (rewrite Hext; now apply contents_app).
  rewrite <- Ht1.
  destruct Hcase as [(_ & _ & Hp & Ho & _)|[_ Hfresh]].
  - destruct Hcond as [Hne|Hbefore].
    + apply contents_heap_write_other. simpl. congruence.
    + apply contents_heap_write_before; [exact Hb|]. simpl. lia.
  - destruct (Nat.eq_dec (ptr t) (ptr ret)) as [E|E].
    + rewrite !contents_empty; [reflexivity| |];
        apply (wf_unallocated h0 t Ht); lia.
    + now apply contents_heap_write_other.
Qed.

Lemma AppendTime_frame (e : Encoding) (t : Time_t) (dst : slice) (h : heap) :
  wf_slice h dst ->
  exists ret h',
    AppendTime slack e t dst h = Ok (ret, h') /\ keeps_other_bytes h h' dst.
Proof.
  intros Hdst. unfold AppendTime.
  unfold bind at 1. unfold new_array.
  change (length (replicate 5 x00)) with 5%nat.
  do 5 (unfold bind at 1; rewrite (store_new slack) by lia).
  match goal with
  | |- context [h ++ [?a]] => change a with (time_bytes (Unix t))
  end.
  set (src := {| ptr := length h; off := 0; len := 5; cap := 5 |}).
  set (h0 := h ++ [time_bytes (Unix t)]).
  assert (Hsrc : wf_slice h0 src).
  { split; simpl; [lia|]. unfold h0. now rewrite array_at_app_new. }
  destruct (ensure_Encode_run e LenTime dst src h0 ltac:(unfold LenTime; lia)
              (wf_app h _ dst Hdst) Hsrc ltac:(left; simpl; lia)
              ltac:(simpl; rewrite EncodedLen_5; unfold LenTime; lia))
    as (ret & h' & Erun & Hframe).
  exists ret, h'. split; [exact Erun|].
  intros u Hu Hcond. rewrite (Hframe u (wf_app h _ u Hu) Hcond).
  now apply contents_app.
Qed.

(** [grow], with what it leaves alone. *)
Lemma grow_frame (b : slice) (n : Z) (h : heap) :
  0 <= n -> wf_slice h b ->
  exists ret h',
    grow slack b n h = Ok (ret, h') /\
    len ret = len b /\
    wf_slice h' ret /\
    (len ret + Z.to_nat n <= cap ret)%nat /\
    ((ptr ret = ptr b /\ off ret = off b) \/ (length h <= ptr ret)%nat) /\
    (forall t, wf_slice h t -> wf_slice h' t) /\
    keeps_other_bytes h h' b.
Proof.
  intros Hn Hb. pose proof Hb as [Hl Hc].
  unfold grow, Cap, Len.
  destruct (Z.of_nat (cap b) - Z.of_nat (len b) >? n) eqn:Espare.
  - exists b, h. unfold mret.
    split; [reflexivity|]. split; [reflexivity|]. split; [exact Hb|].
    split; [lia|]. split; [now left|]. split; [auto|]. intros t _ _. reflexivity.
  - unfold bind at 1. rewrite make_load by lia.
    set (zeros := replicate (Z.to_nat n) x00).
    set (h1 := h ++ [zeros]).
    assert (Hz : length zeros = Z.to_nat n) by apply length_replicate.
    assert (Hb1 : wf_slice h1 b) by now apply wf_app.
    destruct (append_spec slack b zeros h1 Hb1)
      as (b' & h' & Erun & Hlen & Hwf & Hcont & Hlenh & Hwfs & Hframe & Hcase).
    unfold bind at 1. rewrite Erun.
    rewrite sub_ok by (unfold Cap; destruct Hwf; lia).
    change (Z.to_nat 0) with 0%nat.
    rewrite Nat.add_0_r, Nat.sub_0_r, Z.sub_0_r, Nat2Z.id.
    eexists _, _. split; [reflexivity|]. simpl.
    split; [reflexivity|].
    split; [destruct Hwf; split; simpl; lia|].
    split; [destruct Hwf; lia|].
    split.
    { destruct Hcase as [(_ & ? & ? & _)|[_ Hp]]; [now left|right].
      rewrite Hp. unfold h1. rewrite length_app. lia. }
    split; [intros t Ht; apply Hwfs; now apply wf_app|].
    intros t Ht Hcond.
    rewrite Hframe; [now apply contents_app|now apply wf_app|exact Hcond].
Qed.

(** The loop of [AppendNormalized], with what it leaves alone, whether
    it reallocates or not. *)
Lemma norm_loop_frame (src : slice) (n : nat) :
  forall (i : nat) (dst : slice) (h : heap),
    wf_slice h dst -> (i + n <= len src)%nat ->
    exists ret h',
      norm_loop slack n src (Z.of_nat i) dst h = Ok (ret, h') /\
      keeps_other_bytes h h' dst.
Proof.
  induction n as [|n IH]; intros i dst h Hdst Hi.
  - exists dst, h. split; [reflexivity|]. intros t _ _. reflexivity.
  - cbn [norm_loop]. unfold bind at 1. rewrite (index_ok slack) by lia.
    set (r := normUpper (nth i (contents h src) x00)). cbv zeta.
    replace (Z.of_nat i + 1) with (Z.of_nat (S i)) by lia.
    destruct (negb (Byte.eqb r x00)).
    + destruct (append_spec slack dst [r] h Hdst)
        as (d & h1 & Erun & Hlen & Hwf & _ & Hlenh & Hwfs & Hframe & Hcase).
      unfold bind at 1. rewrite Erun.
      destruct (IH (S i) d h1 Hwf ltac:(lia)) as (ret & h' & Erun' & Hframe').
      exists ret, h'. split; [exact Erun'|].
      intros t Ht Hcond.
      rewrite Hframe'; [now apply Hframe|now apply Hwfs|].
      destruct Hcase as [(_ & Hp & Ho & _)|[_ Hp]].
      * rewrite Hp, Ho, Hlen. destruct Hcond; [now left|right; lia].
      * destruct (Nat.eq_dec (ptr t) (ptr d)) as [E|E]; [right|now left].
        rewrite (wf_unallocated h t Ht) by lia.
        destruct Ht as [Htl Htc]. rewrite array_at_ge in Htc by lia.
        simpl in Htc. lia.
    + unfold bind at 1. unfold mret at 1.
      destruct (IH (S i) dst h Hdst ltac:(lia)) as (ret & h' & Erun' & Hframe').
      now exists ret, h'.
Qed.

Lemma AppendNormalized_frame (dst src : slice) (h : heap) :
  wf_slice h dst ->
  exists ret h',
    AppendNormalized slack dst src h = Ok (ret, h') /\
    keeps_other_bytes h h' dst.
Proof.
  intros Hdst. unfold AppendNormalized, Cap.
  destruct (Z.of_nat (cap dst) =? 0) eqn:Ecap.
  - unfold bind at 1. rewrite make_ok by (unfold Len; lia).
    unfold Len. rewrite Nat2Z.id. change (Z.to_nat 0) with 0%nat.
    set (d0 := {| ptr := length h; off := 0; len := 0; cap := len src |}).
    set (h0 := h ++ [replicate (len src) x00]).
    assert (Hd0 : wf_slice h0 d0).
    { split; simpl; [lia|]. unfold h0.
      rewrite array_at_app_new, length_replicate. lia. }
    destruct (norm_loop_frame src (len src) 0 d0 h0 Hd0 ltac:(lia))
      as (ret & h' & Erun & Hframe).
    exists ret, h'. split; [exact Erun|].
    intros t Ht _.
    rewrite Hframe; [now apply contents_app|now apply wf_app|].
    simpl. destruct (Nat.eq_dec (ptr t) (length h)) as [E|E]; [right|now left].
    rewrite (wf_unallocated h t Ht) by lia.
    destruct Ht as [Htl Htc]. rewrite array_at_ge in Htc by lia.
    simpl in Htc. lia.
  - unfold bind at 1. unfold mret at 1.
    apply (norm_loop_frame src (len src) 0 dst h Hdst). lia.
Qed.

(** X22. [Normalized] keeps a byte exactly when it is one of the 37
    uppercase symbols, one of the 23 lowercase letters or one of
    [O o I i]; every other byte is dropped, the letters [L] and [l]
    among them. *)
Theorem Normalized_keeps_exactly (c : byte) (h : heap) :
  value (Normalized slack [c] h)
  = Ok (if kept c then [normUpper c] else []) /\
  kept "L" = false /\ kept "l" = false.
Proof.
  split; [|split; reflexivity].
  destruct (Normalized_spec slack [c] h) as [h' E]. rewrite E. cbn [value].
  f_equal. cbn [norm_bytes].
  replace (negb (Byte.eqb (normUpper c) x00)) with (kept c)
    by (destruct c; reflexivity).
  reflexivity.
Qed.

End MoreBuffers.

Section MoreRandom.

Variable slack : nat -> nat -> nat.
Variable rand_Read : nat -> read_outcome.

Lemma contents_heap_write_kept
    (h : heap) (w : slice) (i : nat) (xs : list byte) (t : slice) :
  in_bounds h w i xs ->
  ptr t <> ptr w \/ (off t + len t <= off w + i)%nat \/ len t = 0%nat ->
  contents (heap_write h w i xs) t = contents h t.
Proof.
  intros Hb [Hne|[Hbefore|Hempty]].
  - now apply contents_heap_write_other.
  - now apply contents_heap_write_before.
  - now rewrite !contents_empty.
Qed.

(** [AppendRandom] when the source succeeds, with the heap it leaves:
    the bytes read and the characters are both written at the end of
    [dst], in its array or in a fresh one. *)
Lemma AppendRandom_frame (e : Encoding) (dst : slice) (h : heap) (bs : list byte) :
  wf_slice h dst -> rand_Read 5 = ReadOk bs ->
  exists ret h',
    AppendRandom slack rand_Read e dst h = Ok (ret, h') /\
    keeps_other_bytes h h' dst.
Proof.
  intros Hdst Hbs.
  destruct (grow_frame slack dst LenRandom h ltac:(unfold LenRandom; lia) Hdst)
    as (d & h1 & Erun & Hlen & Hwf & Hroom & Hpos & Hwfs & Hframe).
  change (Z.to_nat LenRandom) with 8%nat in *.
  pose proof Hwf as [Hdl Hdc].
  set (src := {| ptr := ptr d; off := off d + len d; len := 5;
                 cap := cap d - len d |}).
  set (tar := {| ptr := ptr d; off := off d + len d; len := 8;
                 cap := cap d - len d |}).
  assert (Esrc : {| ptr := ptr d; off := off d + Z.to_nat (Len d);
                    len := Z.to_nat (Len d + 5 - Len d);
                    cap := cap d - Z.to_nat (Len d) |} = src)
    by (unfold src, Len; f_equal; lia).
  assert (Etar : {| ptr := ptr d; off := off d + Z.to_nat (Len d);
                    len := Z.to_nat (Len d + LenRandom - Len d);
                    cap := cap d - Z.to_nat (Len d) |} = tar)
    by (unfold tar, Len, LenRandom; f_equal; lia).
  assert (Htake : (length (take 5 bs) <= 5)%nat) by (rewrite length_take; lia).
  set (h2 := heap_write h1 src 0 (take 5 bs)).
  assert (Hb2 : in_bounds h1 src 0 (take 5 bs))
    by (unfold in_bounds; simpl; lia).
  assert (Hsrc : wf_slice h2 src).
  { apply wf_heap_write; [exact Hb2|]. split; simpl; lia. }
  assert (Htar : wf_slice h2 tar).
  { apply wf_heap_write; [exact Hb2|]. split; simpl; lia. }
  set (chars := EncodeToString e (contents h2 src)).
  assert (Hchars : length chars = 8%nat).
  { unfold chars. rewrite EncodeToString_length, length_contents by exact Hsrc.
    apply EncodedLen_5. }
  assert (Hb3 : in_bounds h2 tar 0 chars).
  { unfold in_bounds. rewrite Hchars. destruct Htar. simpl in *. lia. }
  unfold AppendRandom. unfold bind at 1. rewrite Erun.
  unfold bind at 1. rewrite sub_ok by (unfold Cap, Len; lia).
  rewrite Esrc. change (len src) with 5%nat. rewrite Hbs.
  unfold bind at 1.
  rewrite store_list_ok by (unfold Len; simpl; lia).
  change (Z.to_nat 0) with 0%nat. fold h2.
  unfold bind at 1. rewrite sub_ok by (unfold Cap, Len, LenRandom; lia).
  rewrite Etar.
  unfold bind at 1.
  rewrite Encode_spec; [|assumption|assumption|right; simpl; lia
                        |simpl; rewrite EncodedLen_5; lia].
  fold chars.
  rewrite sub_ok by (unfold Cap, Len, LenRandom; lia).
  eexists _, _. split; [reflexivity|].
  intros t Ht Hcond.
  assert (Hkept : ptr t <> ptr d
                  \/ (off t + len t <= off d + len d + 0)%nat \/ len t = 0%nat).
  { destruct Hpos as [[Hp Ho]|Hfresh].
    - rewrite Hp, Ho, Hlen. destruct Hcond; [now left|right; left; lia].
    - destruct (Nat.eq_dec (ptr t) (ptr d)) as [E|E]; [|now left].
      right; right. apply (wf_unallocated h t Ht). lia. }
  rewrite contents_heap_write_kept; [|exact Hb3|exact Hkept].
  unfold h2. rewrite contents_heap_write_kept; [|exact Hb2|exact Hkept].
  now apply Hframe.
Qed.

(** X18. With a source that supplies 5 bytes, [Random] is the encoding
    of exactly those bytes and [AppendRandom] appends it, although the
    bytes read and the characters written share their first cells. *)
Theorem Random_encodes_the_bytes_read
    (e : Encoding) (dst : slice) (h : heap) (bs : list byte) :
  wf_slice h dst -> rand_Read 5 = ReadOk bs -> length bs = 5%nat ->
  (exists ret h',
      AppendRandom slack rand_Read e dst h = Ok (ret, h') /\
      contents h' ret = contents h dst ++ EncodeToString e bs) /\
  value (Random slack rand_Read e h) = Ok (EncodeToString e bs).
Proof.
  intros Hdst Hbs Hlen.
  pose proof (AppendRandom_spec slack rand_Read e dst h Hdst) as HA.
  pose proof (Random_spec slack rand_Read e h) as HR.
  rewrite Hbs in HA, HR. split.
  - destruct HA as (ret & h' & rnd & Erun & _ & _ & _ & Hrnd & Hcont & _).
    exists ret, h'. split; [exact Erun|].
    rewrite Hcont, Hrnd by lia. now rewrite take_ge by lia.
  - destruct HR as (rnd & h' & Erun & _ & Hrnd).
    rewrite Erun. cbn [value]. rewrite Hrnd by lia. now rewrite take_ge by lia.
Qed.

End MoreRandom.

Section MoreHash.

Variable slack : nat -> nat -> nat.
Variable md5_Sum : list byte -> list byte.
Hypothesis md5_Size : forall m, length (md5_Sum m) = 16%nat.

Lemma AppendMD5_frame (e : Encoding) (dst src : slice) (h : heap) :
  padChar e = None -> wf_slice h dst -> wf_slice h src ->
  exists ret h',
    AppendMD5 slack md5_Sum e dst src h = Ok (ret, h') /\
    keeps_other_bytes h h' dst.
Proof.
  intros Hpad Hdst Hsrc. unfold AppendMD5.
  unfold bind at 1. unfold new_array.
  change (length (replicate 16 x00)) with 16%nat.
  unfold bind at 1. unfold load at 1.
  rewrite contents_app by exact Hsrc.
  set (digest := md5_Sum (contents h src)).
  assert (Hdig : length digest = 16%nat) by apply md5_Size.
  unfold bind at 1. unfold bind at 1.
  rewrite sub_ok by (unfold Cap; simpl; lia).
  rewrite append_in_place by (simpl; lia).
  simpl ptr; simpl off; simpl len; simpl cap.
  rewrite heap_write_new.
  replace (overwrite (0 + Z.to_nat 0 + Z.to_nat (0 - 0)) digest (replicate 16 x00))
    with digest.
  2:{ unfold overwrite. change (0 + Z.to_nat 0 + Z.to_nat (0 - 0))%nat with 0%nat.
      rewrite take_0, drop_ge by (simpl; lia). now rewrite app_nil_r. }
  set (buf := {| ptr := length h; off := 0; len := 16; cap := 16 |}).
  set (h0 := h ++ [digest]).
  assert (Hbuf : wf_slice h0 buf).
  { split; simpl; [lia|]. unfold h0. rewrite array_at_app_new. lia. }
  destruct (ensure_Encode_run slack e LenMD5 dst buf h0 ltac:(unfold LenMD5; lia)
              (wf_app h _ dst Hdst) Hbuf)
    as (ret & h' & Erun & Hframe).
  { right. split; [unfold LenMD5; lia|]. split.
    - unfold h0. rewrite length_app. simpl. lia.
    - intros Hcap. pose proof (wf_ptr h dst Hdst Hcap). simpl. lia. }
  { simpl. rewrite (EncodedLen_16 e Hpad). unfold LenMD5. lia. }
  exists ret, h'. split; [exact Erun|].
  intros u Hu Hcond. rewrite (Hframe u (wf_app h _ u Hu) Hcond).
  now apply contents_app.
Qed.

(** X23. The content-hash fragment depends only on the bytes of [src]:
    two sources with the same bytes, in whatever heaps and arrays, give
    the same 26 characters. *)
Theorem MD5_depends_on_content_only
    (e : Encoding) (src1 src2 : slice) (h1 h2 : heap) :
  padChar e = None -> wf_slice h1 src1 -> wf_slice h2 src2 ->
  contents h1 src1 = contents h2 src2 ->
  exists s,
    value (MD5 slack md5_Sum e src1 h1) = Ok s /\
    value (MD5 slack md5_Sum e src2 h2) = Ok s /\
    s = EncodeToString e (md5_Sum (contents h1 src1)) /\
    length s = 26%nat.
Proof.
  intros Hpad H1 H2 Heq.
  destruct (MD5_spec slack md5_Sum md5_Size e src1 h1 Hpad H1) as [h1' E1].
  destruct (MD5_spec slack md5_Sum md5_Size e src2 h2 Hpad H2) as [h2' E2].
  exists (EncodeToString e (md5_Sum (contents h1 src1))).
  rewrite E1, E2, Heq. cbn [value].
  repeat split.
  rewrite EncodeToString_length, md5_Size. now apply EncodedLen_16.
Qed.

End MoreHash.

Section MorePackage.

Variable slack : nat -> nat -> nat.
Variable rand_Read : nat -> read_outcome.
Variable md5_Sum : list byte -> list byte.
Hypothesis md5_Size : forall m, length (md5_Sum m) = 16%nat.

(** X19. The append operations write only past the end of [dst] or into
    fresh arrays: every slice that lies in another array, or that ends
    no later than [dst] ends, holds the same bytes afterwards. *)
Theorem append_operations_keep_other_bytes
    (e : Encoding) (t : Time_t) (dst src : slice) (h : heap) :
  padChar e = None -> wf_slice h dst -> wf_slice h src ->
  (exists ret h',
      AppendTime slack e t dst h = Ok (ret, h') /\ keeps_other_bytes h h' dst) /\
  (forall bs, rand_Read 5 = ReadOk bs ->
    exists ret h',
      AppendRandom slack rand_Read e dst h = Ok (ret, h') /\
      keeps_other_bytes h h' dst) /\
  (exists ret h',
      AppendMD5 slack md5_Sum e dst src h = Ok (ret, h') /\
      keeps_other_bytes h h' dst) /\
  (exists ret h',
      AppendNormalized slack dst src h = Ok (ret, h') /\
      keeps_other_bytes h h' dst).
Proof.
  intros Hpad Hdst Hsrc. split; [|split; [|split]].
  - now apply AppendTime_frame.
  - intros bs Hbs. now apply (AppendRandom_frame slack rand_Read e dst h bs).
  - now apply AppendMD5_frame.
  - now apply AppendNormalized_frame.
Qed.

(** X20. The encoders themselves reuse spare capacity: with 8 spare
    cells [AppendTime] and [AppendRandom], and with 26 spare cells
    [AppendMD5], return a slice of the array of [dst] with the capacity
    of [dst]. *)
Theorem encoders_reuse_spare_capacity
    (e : Encoding) (t : Time_t) (dst src : slice) (h : heap) :
  padChar e = None -> wf_slice h dst -> wf_slice h src ->
  (LenTime <= Cap dst - Len dst ->
   exists ret h',
     AppendTime slack e t dst h = Ok (ret, h') /\
     ptr ret = ptr dst /\ off ret = off dst /\ cap ret = cap dst) /\
  (LenRandom <= Cap dst - Len dst ->
   forall bs, rand_Read 5 = ReadOk bs ->
   exists ret h',
     AppendRandom slack rand_Read e dst h = Ok (ret, h') /\
     ptr ret = ptr dst /\ off ret = off dst /\ cap ret = cap dst) /\
  (LenMD5 <= Cap dst - Len dst ->
   exists ret h',
     AppendMD5 slack md5_Sum e dst src h = Ok (ret, h') /\
     ptr ret = ptr dst /\ off ret = off dst /\ cap ret = cap dst).
Proof.
  intros Hpad Hdst Hsrc. unfold LenTime, LenRandom, LenMD5, Cap, Len.
  split; [|split].
  - intros Hroom.
    destruct (AppendTime_spec slack e t dst h Hdst)
      as (ret & h' & Erun & _ & _ & _ & Hsame).
    exists ret, h'. split; [exact Erun|]. apply Hsame. lia.
  - intros Hroom bs Hbs.
    pose proof (AppendRandom_spec slack rand_Read e dst h Hdst) as HA.
    rewrite Hbs in HA.
    destruct HA as (ret & h' & rnd & Erun & _ & _ & _ & _ & _ & Hsame).
    exists ret, h'. split; [exact Erun|]. apply Hsame. lia.
  - intros Hroom.
    destruct (AppendMD5_spec slack md5_Sum md5_Size e dst src h Hpad Hdst Hsrc)
      as (ret & h' & Erun & _ & _ & _ & Hsame).
    exists ret, h'. split; [exact Erun|]. apply Hsame. lia.
Qed.

(** X21. In the lowercase and in the uppercase encoding every character
    of a time, random or content-hash fragment is a symbol of the
    32-symbol alphabet of the encoding. *)
Theorem fragments_use_the_alphabet
    (e : Encoding) (t : Time_t) (src : slice) (h : heap) :
  e = Lower \/ e = Upper -> wf_slice h src ->
  (exists s h',
      Time slack e t h = Ok (s, h') /\ Forall (fun c => In c (encode e)) s) /\
  (forall bs, rand_Read 5 = ReadOk bs ->
    exists s h',
      Random slack rand_Read e h = Ok (s, h') /\
      Forall (fun c => In c (encode e)) s) /\
  (exists s h',
      MD5 slack md5_Sum e src h = Ok (s, h') /\
      Forall (fun c => In c (encode e)) s).
Proof.
  intros He Hsrc.
  assert (Hlen : length (encode e) = 32%nat)
    by (destruct He as [->| ->]; reflexivity).
  assert (Hpad : padChar e = None)
    by (destruct He as [->| ->]; reflexivity).
  assert (Hin : forall bs, Forall (fun c => In c (encode e)) (EncodeToString e bs))
    by (intros bs; now apply encode_bytes_in_alphabet).
  split; [|split].
  - destruct (Time_spec slack e t h) as [h' E].
    exists (time_chars e (Unix t)), h'. split; [exact E|apply Hin].
  - intros bs Hbs. pose proof (Random_spec slack rand_Read e h) as HR.
    rewrite Hbs in HR. destruct HR as (rnd & h' & Erun & _).
    exists (EncodeToString e rnd), h'. split; [exact Erun|apply Hin].
  - destruct (MD5_spec slack md5_Sum md5_Size e src h Hpad Hsrc) as [h' E].
    eexists _, h'. split; [exact E|apply Hin].
Qed.

End MorePackage.

(** * The further properties at sample inputs *)

Lemma mod_is_big_endian_modulus_witness :
  0 < 97 <= 2 ^ 55 /\
  mod_ (bytes "hello") 97 = Ok (be_value (bytes "hello") mod 97) /\
  mod_ [] 97 = Ok 0.
Proof.
  assert (Hm : 0 < 97 <= 2 ^ 55) by (split; reflexivity || discriminate).
  split; [exact Hm|].
  apply (mod_is_big_endian_modulus (bytes "hello") 97 Hm).
Defined.

Lemma Time_eq_iff_congruent_witness :
  (Lower = Lower \/ Lower = Upper) /\
  (value (Time doubling_slack Lower {| Unix := 7 |} [])
   = value (Time doubling_slack Lower {| Unix := 7 + 2 ^ 40 |} sample_heap)
   <-> 7 mod 2 ^ 40 = (7 + 2 ^ 40) mod 2 ^ 40).
Proof.
  split; [left; reflexivity|].
  apply (Time_eq_iff_congruent doubling_slack Lower
           {| Unix := 7 |} {| Unix := 7 + 2 ^ 40 |} [] sample_heap).
  left; reflexivity.
Defined.


Lemma ensure_grow_negative_witness :
  wf_slice sample_heap sample_dst /\ -1 < 0 /\
  (exists msg, ensure doubling_slack (-1) sample_dst sample_heap = Panic msg) /\
  grow doubling_slack sample_dst (-1) sample_heap = Ok (sample_dst, sample_heap).
Proof.
  assert (Hwf : wf_slice sample_heap sample_dst) by (split; simpl; lia).
  split; [exact Hwf|]. split; [lia|].
  apply (ensure_grow_negative doubling_slack (-1) sample_dst sample_heap Hwf).
  lia.
Defined.

Lemma grow_makes_room_witness :
  wf_slice sample_heap sample_dst /\ 0 <= 40 /\
  Cap sample_dst <= alloc_bound /\
  Len sample_dst + 40
  + Z.of_nat (doubling_slack (cap sample_dst) (len sample_dst + Z.to_nat 40))
  <= alloc_bound /\
  exists ret h',
    grow doubling_slack sample_dst 40 sample_heap = Ok (ret, h') /\
    wf_slice h' ret /\
    Len ret = Len sample_dst /\
    contents h' ret = contents sample_heap sample_dst /\
    40 <= Cap ret - Len ret /\
    Cap ret <= alloc_bound.
Proof.
  assert (Hwf : wf_slice sample_heap sample_dst) by (split; simpl; lia).
  assert (Hheld : Cap sample_dst <= alloc_bound) by (vm_compute; discriminate).
  assert (Hbound : Len sample_dst + 40
                   + Z.of_nat (doubling_slack (cap sample_dst)
                                 (len sample_dst + Z.to_nat 40))
                   <= alloc_bound)
    by (vm_compute; discriminate).
  split; [exact Hwf|]. split; [lia|]. split; [exact Hheld|].
  split; [exact Hbound|].
  apply (grow_makes_room doubling_slack sample_dst 40 sample_heap Hwf
           ltac:(lia) Hheld Hbound).
Defined.

Lemma AppendNormalized_onto_itself_witness :
  wf_slice sample_heap sample_dst /\ (0 < cap sample_dst)%nat /\
  exists ret h',
    (dst <- sub sample_dst 0 0 ;;
     AppendNormalized doubling_slack dst sample_dst) sample_heap = Ok (ret, h') /\
    contents h' ret = norm_bytes (contents sample_heap sample_dst) /\
    ptr ret = ptr sample_dst /\ off ret = off sample_dst /\
    cap ret = cap sample_dst /\
    length h' = length sample_heap.
Proof.
  assert (Hwf : wf_slice sample_heap sample_dst) by (split; simpl; lia).
  assert (Hcap : (0 < cap sample_dst)%nat) by (simpl; lia).
  split; [exact Hwf|]. split; [exact Hcap|].
  apply (AppendNormalized_onto_itself doubling_slack sample_dst sample_heap
           Hwf Hcap).
Defined.

Lemma AppendNormalized_reuses_capacity_witness :
  wf_slice sample_heap sample_dst /\ (0 < cap sample_dst)%nat /\
  (len sample_dst + len sample_src <= cap sample_dst)%nat /\
  exists ret h' app,
    AppendNormalized doubling_slack sample_dst sample_src sample_heap
    = Ok (ret, h') /\
    ptr ret = ptr sample_dst /\ off ret = off sample_dst /\
    cap ret = cap sample_dst /\
    length h' = length sample_heap /\
    contents h' ret = contents sample_heap sample_dst ++ app /\
    (forall t, wf_slice sample_heap t ->
       ptr t <> ptr sample_dst
       \/ (off t + len t <= off sample_dst + len sample_dst)%nat ->
       contents h' t = contents sample_heap t).
Proof.
  assert (Hwf : wf_slice sample_heap sample_dst) by (split; simpl; lia).
  assert (Hcap : (0 < cap sample_dst)%nat) by (simpl; lia).
  assert (Hroom : (len sample_dst + len sample_src <= cap sample_dst)%nat)
    by (simpl; lia).
  split; [exact Hwf|]. split; [exact Hcap|]. split; [exact Hroom|].
  apply (AppendNormalized_reuses_capacity doubling_slack sample_dst sample_src
           sample_heap Hwf Hcap Hroom).
Defined.

Lemma AppendNormalized_allocates_once_witness :
  wf_slice sample_heap nil_slice /\ cap nil_slice = 0%nat /\
  exists ret h',
    AppendNormalized doubling_slack nil_slice sample_src sample_heap
    = Ok (ret, h') /\
    ptr ret = length sample_heap /\ off ret = 0%nat /\ cap ret = len sample_src /\
    length h' = S (length sample_heap) /\
    (forall t, wf_slice sample_heap t -> contents h' t = contents sample_heap t).
Proof.
  assert (Hwf : wf_slice sample_heap nil_slice) by (split; simpl; lia).
  split; [exact Hwf|]. split; [reflexivity|].
  apply (AppendNormalized_allocates_once doubling_slack nil_slice sample_src
           sample_heap Hwf eq_refl).
Defined.

Lemma Random_encodes_the_bytes_read_witness :
  wf_slice sample_heap sample_dst /\
  steady_source 5 = ReadOk (bytes "AAAAA") /\ length (bytes "AAAAA") = 5%nat /\
  (exists ret h',
      AppendRandom doubling_slack steady_source Lower sample_dst sample_heap
      = Ok (ret, h') /\
      contents h' ret
      = contents sample_heap sample_dst ++ EncodeToString Lower (bytes "AAAAA")) /\
  value (Random doubling_slack steady_source Lower sample_heap)
  = Ok (EncodeToString Lower (bytes "AAAAA")).
Proof.
  assert (Hwf : wf_slice sample_heap sample_dst) by (split; simpl; lia).
  split; [exact Hwf|]. split; [reflexivity|]. split; [reflexivity|].
  apply (Random_encodes_the_bytes_read doubling_slack steady_source Lower
           sample_dst sample_heap (bytes "AAAAA") Hwf eq_refl eq_refl).
Defined.

Lemma append_operations_keep_other_bytes_witness :
  padChar Upper = None /\
  wf_slice sample_heap sample_dst /\ wf_slice sample_heap sample_src /\
  (forall m, length (constant_digest m) = 16%nat) /\
  (exists ret h',
      AppendTime doubling_slack Upper {| Unix := 1700000000 |} sample_dst sample_heap
      = Ok (ret, h') /\
      keeps_other_bytes sample_heap h' sample_dst) /\
  (forall bs, steady_source 5 = ReadOk bs ->
    exists ret h',
      AppendRandom doubling_slack steady_source Upper sample_dst sample_heap
      = Ok (ret, h') /\
      keeps_other_bytes sample_heap h' sample_dst) /\
  (exists ret h',
      AppendMD5 doubling_slack constant_digest Upper sample_dst sample_src sample_heap
      = Ok (ret, h') /\
      keeps_other_bytes sample_heap h' sample_dst) /\
  (exists ret h',
      AppendNormalized doubling_slack sample_dst sample_src sample_heap
      = Ok (ret, h') /\
      keeps_other_bytes sample_heap h' sample_dst).
Proof.
  assert (Hdst : wf_slice sample_heap sample_dst) by (split; simpl; lia).
  assert (Hsrc : wf_slice sample_heap sample_src) by (split; simpl; lia).
  assert (Hsize : forall m, length (constant_digest m) = 16%nat)
    by (intros m; reflexivity).
  split; [reflexivity|]. split; [exact Hdst|]. split; [exact Hsrc|].
  split; [exact Hsize|].
  apply (append_operations_keep_other_bytes doubling_slack steady_source
           constant_digest Hsize Upper {| Unix := 1700000000 |}
           sample_dst sample_src sample_heap eq_refl Hdst Hsrc).
Defined.

Lemma encoders_reuse_spare_capacity_witness :
  padChar Upper = None /\
  wf_slice sample_heap sample_dst /\ wf_slice sample_heap sample_src /\
  (forall m, length (constant_digest m) = 16%nat) /\
  LenTime <= Cap sample_dst - Len sample_dst /\
  exists ret h',
    AppendTime doubling_slack Upper {| Unix := 1700000000 |} sample_dst sample_heap
    = Ok (ret, h') /\
    ptr ret = ptr sample_dst /\ off ret = off sample_dst /\
    cap ret = cap sample_dst.
Proof.
  assert (Hdst : wf_slice sample_heap sample_dst) by (split; simpl; lia).
  assert (Hsrc : wf_slice sample_heap sample_src) by (split; simpl; lia).
  assert (Hsize : forall m, length (constant_digest m) = 16%nat)
    by (intros m; reflexivity).
  assert (Hroom : LenTime <= Cap sample_dst - Len sample_dst)
    by (unfold LenTime, Cap, Len; simpl; lia).
  split; [reflexivity|]. split; [exact Hdst|]. split; [exact Hsrc|].
  split; [exact Hsize|]. split; [exact Hroom|].
  exact (proj1 (encoders_reuse_spare_capacity doubling_slack steady_source
                  constant_digest Hsize Upper {| Unix := 1700000000 |}
                  sample_dst sample_src sample_heap eq_refl Hdst Hsrc) Hroom).
Defined.

Lemma fragments_use_the_alphabet_witness :
  (Lower = Lower \/ Lower = Upper) /\ wf_slice sample_heap sample_src /\
  (forall m, length (constant_digest m) = 16%nat) /\
  (exists s h',
      Time doubling_slack Lower {| Unix := 1700000000 |} sample_heap = Ok (s, h') /\
      Forall (fun c => In c (encode Lower)) s) /\
  (forall bs, steady_source 5 = ReadOk bs ->
    exists s h',
      Random doubling_slack steady_source Lower sample_heap = Ok (s, h') /\
      Forall (fun c => In c (encode Lower)) s) /\
  (exists s h',
      MD5 doubling_slack constant_digest Lower sample_src sample_heap = Ok (s, h') /\
      Forall (fun c => In c (encode Lower)) s).
Proof.
  assert (Hsrc : wf_slice sample_heap sample_src) by (split; simpl; lia).
  assert (Hsize : forall m, length (constant_digest m) = 16%nat)
    by (intros m; reflexivity).
  split; [left; reflexivity|]. split; [exact Hsrc|]. split; [exact Hsize|].
  apply (fragments_use_the_alphabet doubling_slack steady_source constant_digest
           Hsize Lower {| Unix := 1700000000 |} sample_src sample_heap
           (or_introl eq_refl) Hsrc).
Defined.

Lemma MD5_depends_on_content_only_witness :
  padChar Upper = None /\
  wf_slice sample_heap sample_src /\ wf_slice other_heap other_src /\
  contents sample_heap sample_src = contents other_heap other_src /\
  (forall m, length (constant_digest m) = 16%nat) /\
  exists s,
    value (MD5 doubling_slack constant_digest Upper sample_src sample_heap) = Ok s /\
    value (MD5 doubling_slack constant_digest Upper other_src other_heap) = Ok s /\
    s = EncodeToString Upper (constant_digest (contents sample_heap sample_src)) /\
    length s = 26%nat.
Proof.
  assert (H1 : wf_slice sample_heap sample_src) by (split; simpl; lia).
  assert (H2 : wf_slice other_heap other_src) by (split; simpl; lia).
  assert (Hsize : forall m, length (constant_digest m) = 16%nat)
    by (intros m; reflexivity).
  split; [reflexivity|]. split; [exact H1|]. split; [exact H2|].
  split; [reflexivity|]. split; [exact Hsize|].
  apply (MD5_depends_on_content_only doubling_slack constant_digest Hsize Upper
           sample_src other_src sample_heap other_heap eq_refl H1 H2 eq_refl).
Defined.
